(** * Relevance vector regression (rvm.py): a shallow embedding

    The Python module [rvm.py] defines [BaseRVM] (configuration, [_prune],
    [fit]) and its subclass [RVR] ([_posterior], [predict]).  This file
    embeds those methods and states the properties of the fitting loop.

    - numpy arrays of dtype float64 are sequences over a scalar interface
      [Scalar]; one instance is IEEE 754 binary64 ([spec_float] of the
      standard library, the reference semantics of hardware doubles), the
      other is an exact real field, used for the linear-algebra facts;
    - a model instance is a record of attributes; attributes created by
      [fit] are optional (absent before the first assignment), reading an
      absent attribute raises [AttributeError];
    - methods run in a state-and-exception monad over the instance, so a
      mutation made before an exception is raised stays on the instance,
      as in Python. *)

From HB Require Import structures.
From mathcomp Require Import boot order algebra.
From Stdlib Require Import ZArith String.
From Stdlib Require Import SpecFloat PrimFloat FloatOps.

Set Implicit Arguments.
Unset Strict Implicit.
Unset Printing Implicit Defensive.

(** ** Scalars: the float64 operations the module uses *)

Class Scalar (T : Type) := {
  fzero : T;
  fone : T;
  fadd : T -> T -> T;
  fsub : T -> T -> T;
  fmul : T -> T -> T;
  fdiv : T -> T -> T;
  fabs : T -> T;                 (* np.absolute *)
  fmax : T -> T -> T;            (* np.maximum, the step of np.amax *)
  flt : T -> T -> bool;          (* <  *)
  ffinite : T -> bool;           (* np.isfinite *)
  fofnat : nat -> T              (* int -> float64 conversion *)
}.

(** ** Exceptions and results *)

(** A Python exception is identified by the name of its class. *)
Definition exn := string.

Definition AttributeError : exn := "AttributeError"%string.
Definition IndexError : exn := "IndexError"%string.
Definition ValueError : exn := "ValueError"%string.
Definition LinAlgError : exn := "LinAlgError"%string.
Definition ZeroDivisionError : exn := "ZeroDivisionError"%string.

Inductive res (A : Type) : Type :=
| Val (a : A)
| Exc (e : exn).

Arguments Val {A} a.
Arguments Exc {A} e.

(** ** numpy arrays

    A 1-D array is a sequence, a 2-D array is the sequence of its rows.
    Element-wise operations pair the entries position by position; they
    are used on arrays of equal length (see [wf] below). *)

Section Arrays.

Context {T : Type} {ST : Scalar T}.

Definition vec := seq T.
Definition mat := seq (seq T).

Definition map2 (A B C : Type) (f : A -> B -> C) (u : seq A) (v : seq B) : seq C :=
  [seq f p.1 p.2 | p <- zip u v].

Definition np_ones (k : nat) : vec := nseq k fone.
Definition np_zeros (k : nat) : vec := nseq k fzero.

(** [c * v] for a scalar [c]. *)
Definition vscale (c : T) (v : vec) : vec := [seq fmul c x | x <- v].

(** [np.sum]. *)
Definition np_sum (v : vec) : T := foldl fadd fzero v.

(** Number of columns of a 2-D array with at least one row. *)
Definition ncols (A : mat) : nat := size (head [::] A).

(** [A.T]: the rows of the transpose are the columns of [A]. *)
Definition np_T (A : mat) : mat :=
  [seq [seq nth fzero r j | r <- A] | j <- iota 0 (ncols A)].

(** [np.diag] of a 1-D array: the square matrix with [v] on its diagonal. *)
Definition np_diag (v : vec) : mat :=
  [seq [seq (if i == j then nth fzero v i else fzero) | j <- iota 0 (size v)]
  | i <- iota 0 (size v)].

(** [np.diag] of a 2-D array: its diagonal. *)
Definition np_diagonal (A : mat) : vec :=
  [seq nth fzero (nth [::] A i) i | i <- iota 0 (size A)].

(** Inner product of two 1-D arrays. *)
Definition vdot (u v : vec) : T := np_sum (map2 fmul u v).

(** [np.dot] of a 2-D and a 1-D array. *)
Definition np_dot_mv (A : mat) (v : vec) : vec := [seq vdot r v | r <- A].

(** [np.dot] of two 2-D arrays. *)
Definition np_dot (A B : mat) : mat :=
  [seq [seq vdot r c | c <- np_T B] | r <- A].

Definition madd (A B : mat) : mat := map2 (map2 fadd) A B.
Definition mscale (c : T) (A : mat) : mat := [seq vscale c r | r <- A].

(** [np.amax] of a 1-D array; numpy raises [ValueError] on an empty one. *)
Definition np_amax (v : vec) : res T :=
  if v is x :: v' then Val (foldl fmax x v') else Exc ValueError.

(** [a[keep]] for a boolean array [keep]: the lengths must agree. *)
Definition bool_index (A : Type) (a : seq A) (keep : seq bool) : res (seq A) :=
  if size keep == size a then Val (mask keep a) else Exc IndexError.

(** [A[:, keep]]: boolean selection of the columns. *)
Definition bool_index_cols (A : mat) (keep : seq bool) : res mat :=
  if all (fun r => size keep == size r) A then Val [seq mask keep r | r <- A]
  else Exc IndexError.

(** [np.ix_(keep, keep)] turns the boolean array into the increasing list of
    the positions that hold [True]; [A[np.ix_(keep, keep)]] then selects
    those rows and columns by integer index. *)
Definition nonzero (keep : seq bool) : seq nat :=
  [seq i <- iota 0 (size keep) | nth false keep i].

Definition ix_index (A : mat) (keep : seq bool) : res mat :=
  let idx := nonzero keep in
  if all (fun i => i < size A) idx && all (fun r => all (fun j => j < size r) idx) A
  then Val [seq [seq nth fzero (nth [::] A i) j | j <- idx] | i <- idx]
  else Exc IndexError.

(** [a[-1]] and the assignments [a[0] = x], [a[-1] = x]. *)
Definition getitem_last (A : Type) (a : seq A) : res A :=
  if a is x :: a' then Val (last x a') else Exc IndexError.

Definition setitem_first (A : Type) (a : seq A) (x : A) : res (seq A) :=
  if a is _ :: a' then Val (x :: a') else Exc IndexError.

Definition setitem_last (A : Type) (a : seq A) (x : A) : res (seq A) :=
  if a is _ :: _ then Val (rcons (take (size a).-1 a) x) else Exc IndexError.

(** [a[:-1]]. *)
Definition but_last (A : Type) (a : seq A) : seq A := take (size a).-1 a.

(** [A[:, 0]]. *)
Definition column0 (A : mat) : res vec :=
  if (0 < size A) && all (fun r => 0 < size r) A then Val [seq nth fzero r 0 | r <- A]
  else Exc IndexError.

(** [sklearn.utils.validation.check_X_y]: [X] is a 2-D array with at least
    one row and one column, [y] has one entry per row, all entries finite. *)
Definition check_X_y (X : mat) (y : vec) : res (mat * vec) :=
  if size X == 0 then Exc ValueError
  else if ~~ all (fun r => size r == ncols X) X then Exc ValueError
  else if ncols X == 0 then Exc ValueError
  else if size y != size X then Exc ValueError
  else if ~~ (all (all ffinite) X && all ffinite y) then Exc ValueError
  else Val (X, y).

End Arrays.

Arguments vec T : clear implicits.
Arguments mat T : clear implicits.

(** ** The model instance

    The first nine attributes are the configuration copied by [__init__];
    the others are created by [fit] and its helpers. *)

Section Model.

Context {T : Type} {ST : Scalar T}.

Record rvm : Type := RVM {
  n_iter : nat;
  tol : T;
  alpha : T;
  threshold_alpha : T;
  beta : T;
  beta_fixed : bool;
  bias_used : bool;
  verbose : bool;
  verb_freq : nat;
  phi : option (mat T);
  labels : option (seq string);
  relevance_ : option (mat T);
  y : option (vec T);
  alpha_ : option (vec T);
  beta_ : option T;
  m_ : option (vec T);
  alpha_old : option (vec T);
  gamma : option (vec T);
  sigma_ : option (mat T);
  bias : option (option T)
}.

(** [BaseRVM.__init__]: copy the parameters, no validation. *)
Definition __init__ (n_iter : nat) (tol alpha threshold_alpha beta : T)
    (beta_fixed bias_used verbose : bool) (verb_freq : nat) : rvm :=
  RVM n_iter tol alpha threshold_alpha beta beta_fixed bias_used verbose verb_freq
      None None None None None None None None None None None.

(** Attribute assignment [self.name = v]. *)
Definition set_bias_used (v : bool) (o : rvm) : rvm :=
  let: RVM ni to al th be bf _ ve vf ph la re yy a_ b_ mm ao ga si bi := o in
  RVM ni to al th be bf v ve vf ph la re yy a_ b_ mm ao ga si bi.
Definition set_phi (v : mat T) (o : rvm) : rvm :=
  let: RVM ni to al th be bf bu ve vf _ la re yy a_ b_ mm ao ga si bi := o in
  RVM ni to al th be bf bu ve vf (Some v) la re yy a_ b_ mm ao ga si bi.
Definition set_labels (v : seq string) (o : rvm) : rvm :=
  let: RVM ni to al th be bf bu ve vf ph _ re yy a_ b_ mm ao ga si bi := o in
  RVM ni to al th be bf bu ve vf ph (Some v) re yy a_ b_ mm ao ga si bi.
Definition set_relevance_ (v : mat T) (o : rvm) : rvm :=
  let: RVM ni to al th be bf bu ve vf ph la _ yy a_ b_ mm ao ga si bi := o in
  RVM ni to al th be bf bu ve vf ph la (Some v) yy a_ b_ mm ao ga si bi.
Definition set_y (v : vec T) (o : rvm) : rvm :=
  let: RVM ni to al th be bf bu ve vf ph la re _ a_ b_ mm ao ga si bi := o in
  RVM ni to al th be bf bu ve vf ph la re (Some v) a_ b_ mm ao ga si bi.
Definition set_alpha_ (v : vec T) (o : rvm) : rvm :=
  let: RVM ni to al th be bf bu ve vf ph la re yy _ b_ mm ao ga si bi := o in
  RVM ni to al th be bf bu ve vf ph la re yy (Some v) b_ mm ao ga si bi.
Definition set_beta_ (v : T) (o : rvm) : rvm :=
  let: RVM ni to al th be bf bu ve vf ph la re yy a_ _ mm ao ga si bi := o in
  RVM ni to al th be bf bu ve vf ph la re yy a_ (Some v) mm ao ga si bi.
Definition set_m_ (v : vec T) (o : rvm) : rvm :=
  let: RVM ni to al th be bf bu ve vf ph la re yy a_ b_ _ ao ga si bi := o in
  RVM ni to al th be bf bu ve vf ph la re yy a_ b_ (Some v) ao ga si bi.
Definition set_alpha_old (v : vec T) (o : rvm) : rvm :=
  let: RVM ni to al th be bf bu ve vf ph la re yy a_ b_ mm _ ga si bi := o in
  RVM ni to al th be bf bu ve vf ph la re yy a_ b_ mm (Some v) ga si bi.
Definition set_gamma (v : vec T) (o : rvm) : rvm :=
  let: RVM ni to al th be bf bu ve vf ph la re yy a_ b_ mm ao _ si bi := o in
  RVM ni to al th be bf bu ve vf ph la re yy a_ b_ mm ao (Some v) si bi.
Definition set_sigma_ (v : mat T) (o : rvm) : rvm :=
  let: RVM ni to al th be bf bu ve vf ph la re yy a_ b_ mm ao ga _ bi := o in
  RVM ni to al th be bf bu ve vf ph la re yy a_ b_ mm ao ga (Some v) bi.
Definition set_bias (v : option T) (o : rvm) : rvm :=
  let: RVM ni to al th be bf bu ve vf ph la re yy a_ b_ mm ao ga si _ := o in
  RVM ni to al th be bf bu ve vf ph la re yy a_ b_ mm ao ga si (Some v).

(** ** Methods: computations over the instance that may raise *)

Definition M (A : Type) : Type := rvm -> res A * rvm.

Definition ret (A : Type) (a : A) : M A := fun self => (Val a, self).

Definition bind (A B : Type) (m : M A) (k : A -> M B) : M B :=
  fun self =>
    match m self with
    | (Val a, self') => k a self'
    | (Exc e, self') => (Exc e, self')
    end.

Definition raise (A : Type) (e : exn) : M A := fun self => (Exc e, self).

(** Result of a function that does not touch the instance. *)
Definition lift (A : Type) (r : res A) : M A := fun self => (r, self).

(** [self.name] for a configuration attribute, for an attribute created
    later, and [self.name = v]. *)
Definition get (A : Type) (f : rvm -> A) : M A := fun self => (Val (f self), self).

Definition getattr (A : Type) (f : rvm -> option A) : M A :=
  fun self => (if f self is Some v then Val v else Exc AttributeError, self).

Definition setattr (A : Type) (set : A -> rvm -> rvm) (v : A) : M unit :=
  fun self => (Val tt, set v self).

End Model.

Arguments rvm T : clear implicits.
Arguments M T A : clear implicits.
Arguments raise {T A} e.

Declare Scope py_scope.
Delimit Scope py_scope with py.
Notation "x <- m ;; k" := (bind m (fun x => k))
  (at level 100, m at next level, right associativity) : py_scope.
Notation "m ;; k" := (bind m (fun _ => k))
  (at level 100, right associativity) : py_scope.
Local Open Scope py_scope.

(** ** class BaseRVM *)

Module BaseRVM.
Section Methods.

Context {T : Type} {ST : Scalar T}.

(** [_posterior] is supplied by the subclass. *)
Variable _posterior : M T unit.

(** The mask of [_prune] (lines 95-101): [alpha_ < threshold_alpha], and
    when that keeps nothing, the first entry (and the last one when a bias
    is in use) is set. *)
Definition keep_mask : M T (seq bool) :=
  a <- getattr alpha_ ;;
  thr <- get threshold_alpha ;;
  let keep_alpha := [seq flt x thr | x <- a] in
  if ~~ has id keep_alpha then
    keep_alpha <- lift (setitem_first keep_alpha true) ;;
    bu <- get bias_used ;;
    if bu then lift (setitem_last keep_alpha true) else ret keep_alpha
  else ret keep_alpha.

(** Lines 103-108 of [_prune]: the bias flag and [relevance_]. *)
Definition prune_relevance (keep_alpha : seq bool) : M T unit :=
  bu <- get bias_used ;;
  if bu then
    kl <- lift (getitem_last keep_alpha) ;;
    (if ~~ kl then setattr set_bias_used false else ret tt) ;;
    r <- getattr relevance_ ;;
    r' <- lift (bool_index r (but_last keep_alpha)) ;;
    setattr set_relevance_ r'
  else
    r <- getattr relevance_ ;;
    r' <- lift (bool_index r keep_alpha) ;;
    setattr set_relevance_ r'.

(** Lines 110-115 of [_prune]: the per-basis-function arrays. *)
Definition prune_arrays (keep_alpha : seq bool) : M T unit :=
  a <- getattr alpha_ ;;
  a' <- lift (bool_index a keep_alpha) ;;
  setattr set_alpha_ a' ;;
  ao <- getattr alpha_old ;;
  ao' <- lift (bool_index ao keep_alpha) ;;
  setattr set_alpha_old ao' ;;
  g <- getattr gamma ;;
  g' <- lift (bool_index g keep_alpha) ;;
  setattr set_gamma g' ;;
  P <- getattr phi ;;
  P' <- lift (bool_index_cols P keep_alpha) ;;
  setattr set_phi P' ;;
  s <- getattr sigma_ ;;
  s' <- lift (ix_index s keep_alpha) ;;
  setattr set_sigma_ s' ;;
  m <- getattr m_ ;;
  m' <- lift (bool_index m keep_alpha) ;;
  setattr set_m_ m'.

(** [BaseRVM._prune]. *)
Definition _prune : M T unit :=
  keep_alpha <- keep_mask ;;
  prune_relevance keep_alpha ;;
  prune_arrays keep_alpha.

(** Lines 151-152 of [fit]: gamma, then the new alpha. *)
Definition update_alpha : M T unit :=
  a <- getattr alpha_ ;;
  s <- getattr sigma_ ;;
  setattr set_gamma (map2 (fun ai sii => fsub fone (fmul ai sii)) a (np_diagonal s)) ;;
  g <- getattr gamma ;;
  m <- getattr m_ ;;
  setattr set_alpha_ (map2 fdiv g [seq fmul mi mi | mi <- m]).

(** Lines 154-156 of [fit]: the noise precision. *)
Definition update_beta (n_samples : nat) (y : vec T) : M T unit :=
  bf <- get beta_fixed ;;
  if ~~ bf then
    g <- getattr gamma ;;
    P <- getattr phi ;;
    m <- getattr m_ ;;
    let r := map2 fsub y (np_dot_mv P m) in
    setattr set_beta_
      (fdiv (fsub (fofnat n_samples) (np_sum g)) (np_sum [seq fmul ri ri | ri <- r]))
  else ret tt.

(** Lines 160-166 of [fit]: the periodic report.  The printed text goes to
    the standard output and is not part of the instance; what remains is
    the modulus, which Python evaluates only when [verbose] holds. *)
Definition report (i : nat) : M T unit :=
  v <- get verbose ;;
  if v then
    f <- get verb_freq ;;
    if f == 0 then raise ZeroDivisionError else ret tt
  else ret tt.

(** Lines 168-174 of [fit]: [true] stands for [break]. *)
Definition converged (i : nat) : M T bool :=
  a <- getattr alpha_ ;;
  ao <- getattr alpha_old ;;
  delta <- lift (np_amax [seq fabs d | d <- map2 fsub a ao]) ;;
  t <- get tol ;;
  if flt delta t && (1 < i) then ret true
  else
    a <- getattr alpha_ ;;
    setattr set_alpha_old a ;;
    ret false.

(** The body of the loop (lines 149-174). *)
Definition iteration (n_samples : nat) (y : vec T) (i : nat) : M T bool :=
  _posterior ;;
  update_alpha ;;
  update_beta n_samples y ;;
  _prune ;;
  report i ;;
  converged i.

(** [for i in range(i, i + n): body]. *)
Fixpoint for_range (body : nat -> M T bool) (i n : nat) : M T unit :=
  if n is n'.+1 then
    stop <- body i ;;
    if stop then ret tt else for_range body i.+1 n'
  else ret tt.

(** Lines 176-179 of [fit]. *)
Definition set_bias_term : M T unit :=
  bu <- get bias_used ;;
  if bu then
    m <- getattr m_ ;;
    b <- lift (getitem_last m) ;;
    setattr set_bias (Some b)
  else setattr set_bias None.

(** [BaseRVM.fit]; it returns [self], here the instance of the result. *)
Definition fit (X : mat T) (y : vec T) (X_labels : seq string) : M T unit :=
  Xy <- lift (check_X_y X y) ;;
  let X := Xy.1 in
  let y := Xy.2 in
  let n_samples := size X in
  setattr set_phi X ;;
  setattr set_labels X_labels ;;
  P <- getattr phi ;;
  let n_basis_functions := ncols P in
  setattr set_relevance_ X ;;
  setattr set_y y ;;
  a0 <- get alpha ;;
  setattr set_alpha_ (vscale a0 (np_ones n_basis_functions)) ;;
  b0 <- get beta ;;
  setattr set_beta_ b0 ;;
  setattr set_m_ (np_zeros n_basis_functions) ;;
  a <- getattr alpha_ ;;
  setattr set_alpha_old a ;;
  n <- get n_iter ;;
  for_range (iteration n_samples y) 0 n ;;
  set_bias_term.

End Methods.
End BaseRVM.

(** ** BaseRVM.get_params and BaseRVM.set_params *)

(** The values that the configuration attributes hold. *)
Inductive pyval (T : Type) : Type :=
| PInt (n : nat)
| PFloat (x : T)
| PBool (b : bool).

Arguments PInt {T} n.
Arguments PFloat {T} x.
Arguments PBool {T} b.

Section Params.

Context {T : Type}.

Definition set_n_iter (v : nat) (o : rvm T) : rvm T :=
  let: RVM _ to al th be bf bu ve vf ph la re yy a_ b_ mm ao ga si bi := o in
  RVM v to al th be bf bu ve vf ph la re yy a_ b_ mm ao ga si bi.
Definition set_tol (v : T) (o : rvm T) : rvm T :=
  let: RVM ni _ al th be bf bu ve vf ph la re yy a_ b_ mm ao ga si bi := o in
  RVM ni v al th be bf bu ve vf ph la re yy a_ b_ mm ao ga si bi.
Definition set_alpha (v : T) (o : rvm T) : rvm T :=
  let: RVM ni to _ th be bf bu ve vf ph la re yy a_ b_ mm ao ga si bi := o in
  RVM ni to v th be bf bu ve vf ph la re yy a_ b_ mm ao ga si bi.
Definition set_threshold_alpha (v : T) (o : rvm T) : rvm T :=
  let: RVM ni to al _ be bf bu ve vf ph la re yy a_ b_ mm ao ga si bi := o in
  RVM ni to al v be bf bu ve vf ph la re yy a_ b_ mm ao ga si bi.
Definition set_beta (v : T) (o : rvm T) : rvm T :=
  let: RVM ni to al th _ bf bu ve vf ph la re yy a_ b_ mm ao ga si bi := o in
  RVM ni to al th v bf bu ve vf ph la re yy a_ b_ mm ao ga si bi.
Definition set_beta_fixed (v : bool) (o : rvm T) : rvm T :=
  let: RVM ni to al th be _ bu ve vf ph la re yy a_ b_ mm ao ga si bi := o in
  RVM ni to al th be v bu ve vf ph la re yy a_ b_ mm ao ga si bi.
Definition set_verbose (v : bool) (o : rvm T) : rvm T :=
  let: RVM ni to al th be bf bu _ vf ph la re yy a_ b_ mm ao ga si bi := o in
  RVM ni to al th be bf bu v vf ph la re yy a_ b_ mm ao ga si bi.
Definition set_verb_freq (v : nat) (o : rvm T) : rvm T :=
  let: RVM ni to al th be bf bu ve _ ph la re yy a_ b_ mm ao ga si bi := o in
  RVM ni to al th be bf bu ve v ph la re yy a_ b_ mm ao ga si bi.

(** [BaseRVM.get_params]: the dictionary of eight entries (lines 71-80);
    [verb_freq] is not among them. *)
Definition get_params (self : rvm T) : seq (string * pyval T) :=
  [:: ("n_iter"%string, PInt (n_iter self));
      ("tol"%string, PFloat (tol self));
      ("alpha"%string, PFloat (alpha self));
      ("threshold_alpha"%string, PFloat (threshold_alpha self));
      ("beta"%string, PFloat (beta self));
      ("beta_fixed"%string, PBool (beta_fixed self));
      ("bias_used"%string, PBool (bias_used self));
      ("verbose"%string, PBool (verbose self))].

(** [setattr(self, parameter, value)] of [set_params], for a configuration
    attribute and a value of the kind that attribute holds.  Python accepts
    any name and any value there; the record has no place for those, and
    the result is then [None]. *)
Definition setattr_config (parameter : string) (value : pyval T) (self : rvm T)
    : option (rvm T) :=
  match value with
  | PInt n =>
      if String.eqb parameter "n_iter" then Some (set_n_iter n self)
      else if String.eqb parameter "verb_freq" then Some (set_verb_freq n self)
      else None
  | PFloat x =>
      if String.eqb parameter "tol" then Some (set_tol x self)
      else if String.eqb parameter "alpha" then Some (set_alpha x self)
      else if String.eqb parameter "threshold_alpha" then Some (set_threshold_alpha x self)
      else if String.eqb parameter "beta" then Some (set_beta x self)
      else None
  | PBool b =>
      if String.eqb parameter "beta_fixed" then Some (set_beta_fixed b self)
      else if String.eqb parameter "bias_used" then Some (set_bias_used b self)
      else if String.eqb parameter "verbose" then Some (set_verbose b self)
      else None
  end.

(** [BaseRVM.set_params]: one [setattr] per item; it returns [self]. *)
Definition set_params (parameters : seq (string * pyval T)) (self : rvm T)
    : option (rvm T) :=
  foldl (fun o p => if o is Some s then setattr_config p.1 p.2 s else None)
        (Some self) parameters.

(** The attributes created by [fit] that every validated call assigns
    before its loop starts. *)
Definition fitted (self : rvm T) : bool :=
  [&& phi self, labels self, relevance_ self, y self,
      alpha_ self, beta_ self, m_ self & alpha_old self].

End Params.

(** ** class RVR(BaseRVM) *)

Module RVR.
Section Methods.

Context {T : Type} {ST : Scalar T}.

(** [np.linalg.inv]: the inverse, or [LinAlgError] on a singular matrix. *)
Variable linalg_inv : mat T -> res (mat T).

(** [RVR._posterior]. *)
Definition _posterior : M T unit :=
  a <- getattr alpha_ ;;
  b <- getattr beta_ ;;
  P <- getattr phi ;;
  let i_s := madd (np_diag a) (mscale b (np_dot (np_T P) P)) in
  s <- lift (linalg_inv i_s) ;;
  setattr set_sigma_ s ;;
  b <- getattr beta_ ;;
  s <- getattr sigma_ ;;
  P <- getattr phi ;;
  t <- getattr y ;;
  setattr set_m_ (vscale b (np_dot_mv s (np_dot_mv (np_T P) t))).

(** [np.dot(phi, m)] for the caller's array: the widths must agree. *)
Definition np_dot_mv_checked (A : mat T) (v : vec T) : res (vec T) :=
  if all (fun r => size r == size v) A then Val (np_dot_mv A v) else Exc ValueError.

(** [RVR.predict]: the prediction, and the second array when [eval_MSE]. *)
Definition predict (X : mat T) (eval_MSE : bool) : M T (vec T * option (vec T)) :=
  let phi := X in
  m <- getattr m_ ;;
  y <- lift (np_dot_mv_checked phi m) ;;
  if eval_MSE then
    b <- getattr beta_ ;;
    s <- getattr sigma_ ;;
    let MSE := [seq [seq fadd (fdiv fone b) x | x <- r]
               | r <- np_dot phi (np_dot s (np_T phi))] in
    c <- lift (column0 MSE) ;;
    ret (y, Some c)
  else ret (y, None).

Definition fit := BaseRVM.fit _posterior.

End Methods.
End RVR.

(** ** float64: IEEE 754 binary64

    [spec_float] with precision 53 and exponent bound 1024 is the format
    of numpy's float64; division by zero yields an infinity or NaN, and
    every comparison with NaN is false. *)

Module F64.

Definition t := spec_float.
Definition prec : Z := 53.
Definition emax : Z := 1024.

(** A literal, through the decimal notation of primitive floats. *)
Definition lit (x : float) : t := Prim2SF x.

Definition zero : t := S754_zero false.
Definition isnan (x : t) : bool := if x is S754_nan then true else false.

(** [np.maximum] propagates NaN. *)
Definition max (x z : t) : t :=
  if isnan x then x else if isnan z then z else if SFltb x z then z else x.

Definition iszero (x : t) : bool := if x is S754_zero _ then true else false.
Definition isinf (x : t) : bool := if x is S754_infinity _ then true else false.

Definition finite (x : t) : bool :=
  match x with
  | S754_zero _ | S754_finite _ _ _ => true
  | S754_infinity _ | S754_nan => false
  end.

Definition of_nat (n : nat) : t := binary_normalize prec emax (Z.of_nat n) 0 false.

#[global] Instance scalar : Scalar t := {
  fzero := zero;
  fone := of_nat 1;
  fadd := SFadd prec emax;
  fsub := SFsub prec emax;
  fmul := SFmul prec emax;
  fdiv := SFdiv prec emax;
  fabs := SFabs;
  fmax := max;
  flt := SFltb;
  ffinite := finite;
  fofnat := of_nat
}.

(** An executable stand-in for [np.linalg.inv] (LAPACK [gesv]: elimination
    with partial pivoting, [LinAlgError] on a zero pivot or a non-square
    array): Gauss-Jordan elimination of [[A | I]] in binary64. *)
Fixpoint argmax_abs (j best : nat) (bestv : t) (i : nat) (rows : mat t) : nat :=
  if rows is r :: rows' then
    let v := SFabs (nth zero r j) in
    if SFltb bestv v then argmax_abs j i v i.+1 rows'
    else argmax_abs j best bestv i.+1 rows'
  else best.

Definition eliminate (j : nat) (p r : vec t) : vec t :=
  map2 (fun x z => fsub z (fmul (nth zero r j) x)) p r.

Fixpoint gauss_jordan (n j : nat) (done todo : mat t) : res (mat t) :=
  if n is n'.+1 then
    let p := argmax_abs j 0 (SFabs (nth zero (head [::] todo) j)) 0 todo in
    let prow := nth [::] todo p in
    let piv := nth zero prow j in
    if SFeqb piv zero then Exc LinAlgError
    else
      let prow' := [seq fdiv x piv | x <- prow] in
      let others := take p todo ++ drop p.+1 todo in
      gauss_jordan n' j.+1
        (rcons [seq eliminate j prow' r | r <- done] prow')
        [seq eliminate j prow' r | r <- others]
  else Val done.

Definition inv (A : mat t) : res (mat t) :=
  let k := size A in
  if ~~ all (fun r => size r == k) A then Exc LinAlgError
  else
    let unit i := [seq (if i == j then fone else zero) | j <- iota 0 k] in
    let aug := [seq (nth [::] A i) ++ unit i | i <- iota 0 k] in
    if gauss_jordan k 0 [::] aug is Val B then Val [seq drop k r | r <- B]
    else Exc LinAlgError.

Definition fit := RVR.fit inv.
Definition predict := @RVR.predict t scalar.

End F64.

(** ** Exact arithmetic

    The same operations in a real field [F], where [np.linalg.inv] is the
    inverse of the matrix: what the float64 computation approximates.
    Arrays are read as MathComp matrices by [mx_of], [cv_of], [rv_of]. *)

Module Exact.
Section Field.

Variable F : realFieldType.

Local Open Scope ring_scope.

#[global] Instance scalar : Scalar F := {
  fzero := 0;
  fone := 1;
  fadd := +%R;
  fsub := fun x z => x - z;
  fmul := *%R;
  fdiv := fun x z => x / z;
  fabs := Num.norm;
  fmax := Num.max;
  flt := fun x z => x < z;
  ffinite := fun _ => true;
  fofnat := fun n => n%:R
}.

Definition mx_of (n k : nat) (A : mat F) : 'M[F]_(n, k) :=
  \matrix_(i, j) nth 0 (nth [::] A i) j.

Definition cv_of (n : nat) (v : vec F) : 'cV[F]_n := \col_i nth 0 v i.

Definition rv_of (k : nat) (v : vec F) : 'rV[F]_k := \row_j nth 0 v j.

Definition seq_of_mx (n k : nat) (A : 'M[F]_(n, k)) : mat F :=
  [seq [seq A i j | j <- enum 'I_k] | i <- enum 'I_n].

(** [np.linalg.inv] in exact arithmetic: [LinAlgError] when the array is
    not square or the matrix is singular. *)
Definition inv (A : mat F) : res (mat F) :=
  let k := size A in
  if all (fun r => size r == k) A && (mx_of k k A \in unitmx)
  then Val (seq_of_mx (invmx (mx_of k k A)))
  else Exc LinAlgError.

End Field.
End Exact.

(** ** Shapes

    The size conditions under which the statements below are made; [fit]
    establishes them before the loop and every iteration keeps them. *)

Section Shapes.

Context {T : Type}.

Definition has_size (k : nat) (o : option (vec T)) : bool :=
  if o is Some v then size v == k else false.

Definition has_cols (k : nat) (o : option (mat T)) : bool :=
  if o is Some A then all (fun r => size r == k) A else false.

Definition has_shape (n k : nat) (o : option (mat T)) : bool :=
  if o is Some A then (size A == n) && all (fun r => size r == k) A else false.

(** The per-basis-function state has [k] entries in every array. *)
Definition wf (k : nat) (self : rvm T) : bool :=
  [&& has_size k (alpha_ self), has_size k (alpha_old self),
      has_size k (gamma self), has_size k (m_ self),
      has_cols k (phi self) & has_shape k k (sigma_ self)].

(** [relevance_] has as many rows as the mask that [_prune] applies to it. *)
Definition relevance_rows (k : nat) (self : rvm T) : bool :=
  if relevance_ self is Some R
  then size R == (if bias_used self then k.-1 else k)
  else false.

(** The mask of [_prune] as a function of the comparison results [raw]. *)
Definition forced_mask (raw : seq bool) (bias_used : bool) : seq bool :=
  if has id raw then raw
  else
    let k1 := true :: behead raw in
    if bias_used then rcons (but_last k1) true else k1.

Definition has_rows_cols (k : nat) (o : option (mat T)) : bool :=
  if o is Some A then (0 < size A) && all (fun r => size r == k) A else false.

(** What holds of the instance each time the loop body starts. *)
Definition loop_inv (k : nat) (self : rvm T) : bool :=
  [&& 0 < k, has_size k (alpha_ self), has_size k (alpha_old self) &
      has_rows_cols k (phi self)].

(** [np.linalg.inv] returns an array of the shape of its (square) argument. *)
Definition inv_shape (linalg_inv : mat T -> res (mat T)) : Prop :=
  forall A B, linalg_inv A = Val B ->
    size B = size A /\ all (fun r => size r == size A) B.

(** What holds of the instance after each completed iteration. *)
Definition iter_inv (k : nat) (self : rvm T) : bool :=
  [&& loop_inv k self, wf k self & relevance_rows k self].

(** [cfg_le self self']: the configuration attributes of [self'] are those
    of [self], except that [bias_used] may have been cleared. *)
Definition cfg_le (self self' : rvm T) : Prop :=
  [/\ n_iter self' = n_iter self, tol self' = tol self, alpha self' = alpha self,
      threshold_alpha self' = threshold_alpha self & beta self' = beta self] /\
  [/\ beta_fixed self' = beta_fixed self, verbose self' = verbose self,
      verb_freq self' = verb_freq self & bias_used self' -> bias_used self].

(** [cfg_eq self self']: the same, and [bias_used] is unchanged too. *)
Definition cfg_eq (self self' : rvm T) : Prop :=
  cfg_le self self' /\ bias_used self' = bias_used self.

(** A method keeps the relation [R] between the instance before and after,
    whatever it returns or raises. *)
Definition keeps (R : rvm T -> rvm T -> Prop) (A : Type) (m : M T A) : Prop :=
  forall self r self', m self = (r, self') -> R self self'.

(** The instance when the loop of [fit] starts (lines 133-146). *)
Definition loop_entry {ST : Scalar T} (X : mat T) (y : vec T)
    (X_labels : seq string) (self : rvm T) : rvm T :=
  let a0 := vscale (alpha self) (np_ones (ncols X)) in
  set_alpha_old a0
    (set_m_ (np_zeros (ncols X))
      (set_beta_ (beta self)
        (set_alpha_ a0
          (set_y y (set_relevance_ X (set_labels X_labels (set_phi X self))))))).

(** The instance after the assignments of [_prune], for the mask [keep]. *)
Definition select (keep : seq bool) (self : rvm T) : rvm T :=
  RVM (n_iter self) (tol self) (alpha self) (threshold_alpha self) (beta self)
      (beta_fixed self) (bias_used self && last true keep)
      (verbose self) (verb_freq self)
      (omap (map (mask keep)) (phi self))
      (labels self)
      (omap (mask (if bias_used self then but_last keep else keep)) (relevance_ self))
      (y self)
      (omap (mask keep) (alpha_ self))
      (beta_ self)
      (omap (mask keep) (m_ self))
      (omap (mask keep) (alpha_old self))
      (omap (mask keep) (gamma self))
      (omap (fun A => mask keep [seq mask keep r | r <- A]) (sigma_ self))
      (bias self).

End Shapes.

(** The two arrays assigned by lines 151-152 of [fit]. *)
Definition new_gamma {T : Type} {ST : Scalar T} (a : vec T) (sg : mat T) : vec T :=
  map2 (fun ai sii => fsub fone (fmul ai sii)) a (np_diagonal sg).

Definition new_alpha {T : Type} {ST : Scalar T} (g m : vec T) : vec T :=
  map2 fdiv g [seq fmul mi mi | mi <- m].

(** The value assigned to [beta_] by lines 155-156 of [fit]. *)
Definition new_beta {T : Type} {ST : Scalar T}
    (n_samples : nat) (y : vec T) (g : vec T) (P : mat T) (m : vec T) : T :=
  fdiv (fsub (fofnat n_samples) (np_sum g))
       (np_sum [seq fmul ri ri | ri <- map2 fsub y (np_dot_mv P m)]).

(** [delta] of line 168. *)
Definition max_abs_change {T : Type} {ST : Scalar T} (a ao : vec T) : res T :=
  np_amax [seq fabs d | d <- map2 fsub a ao].

(** The matrix [i_s] of [_posterior] (line 194) and the array assigned
    to [m_] (line 196). *)
Definition precision {T : Type} {ST : Scalar T} (a : vec T) (b : T) (P : mat T) : mat T :=
  madd (np_diag a) (mscale b (np_dot (np_T P) P)).

Definition posterior_mean {T : Type} {ST : Scalar T}
    (b : T) (sg : mat T) (P : mat T) (t : vec T) : vec T :=
  vscale b (np_dot_mv sg (np_dot_mv (np_T P) t)).

(** The comparison [alpha_ < threshold_alpha] of [_prune] (line 95). *)
Definition below_threshold {T : Type} {ST : Scalar T} (self : rvm T) : seq bool :=
  if alpha_ self is Some a then [seq flt x (threshold_alpha self) | x <- a] else [::].

(** ** Concrete instances used in the examples below *)

Module Examples.

(** [RVR()] with the defaults of [__init__]. *)
Definition default_model : rvm F64.t :=
  __init__ 3000 (F64.lit 1e-3) (F64.lit 1e-6) (F64.lit 1e9) (F64.lit 1e-6)
           false true true 10.

(** [RVR(n_iter=1)]: one pass of the loop. *)
Definition one_pass_model : rvm F64.t :=
  __init__ 1 (F64.lit 1e-3) (F64.lit 1e-6) (F64.lit 1e9) (F64.lit 1e-6)
           false true true 10.

(** [RVR(alpha=1.0, beta=1.0, bias_used=False)]. *)
Definition plain_model : rvm F64.t :=
  __init__ 3000 (F64.lit 1e-3) (F64.lit 1) (F64.lit 1e9) (F64.lit 1)
           false false true 10.

(** One sample; the feature [x] is zero on it and the last column, the
    bias, is one. *)
Definition X : mat F64.t := [:: [:: F64.lit 0; F64.lit 1]].
Definition X_labels : seq string := [:: "x"; "bias"]%string.

(** One sample of one feature. *)
Definition X1 : mat F64.t := [:: [:: F64.lit 1]].

(** Two samples of two columns: with a bias in use the first pruning pass
    raises [IndexError] on [relevance_]. *)
Definition X_square : mat F64.t :=
  [:: [:: F64.lit 1; F64.lit 0]; [:: F64.lit 0; F64.lit 1]].

(** One sample on which the bias column is zero. *)
Definition X_no_bias : mat F64.t := [:: [:: F64.lit 1; F64.lit 0]].

(** An instance over the rationals, as [fit] leaves it at the start of the
    loop for one sample [x = 1, y = 1] with [alpha = beta = 1]. *)
Definition rat_model : rvm rat :=
  set_y [:: 1%R] (set_phi [:: [:: 1%R]] (set_beta_ 1%R (set_alpha_ [:: 1%R]
    (__init__ 1 1%R 1%R 1%R 1%R false false true 10)))).

(** The instance on which [update_beta], and then [_prune], runs in the
    first iteration of [fit]. *)
Definition before_update_beta (X : mat F64.t) (t : vec F64.t)
    (X_labels : seq string) (model : rvm F64.t) : rvm F64.t :=
  ((RVR._posterior F64.inv ;; BaseRVM.update_alpha)
     (loop_entry X t X_labels model)).2.

Definition before_prune (X : mat F64.t) (t : vec F64.t)
    (X_labels : seq string) (model : rvm F64.t) : rvm F64.t :=
  (BaseRVM.update_beta (size X) t (before_update_beta X t X_labels model)).2.

(** The instance after the first [n] iterations of [fit]. *)
Definition after_iterations (n : nat) (X : mat F64.t) (t : vec F64.t)
    (X_labels : seq string) (model : rvm F64.t) : rvm F64.t :=
  (BaseRVM.for_range (BaseRVM.iteration (RVR._posterior F64.inv) (size X) t) 0 n
     (loop_entry X t X_labels model)).2.

End Examples.

(** * Properties *)

(** ** Running a method step by step *)

Section Steps.

Context {T : Type} {ST : Scalar T}.

Lemma bind_val (A B : Type) (m : M T A) (k : A -> M T B) s b s' :
  bind m k s = (Val b, s') ->
  exists a s1, m s = (Val a, s1) /\ k a s1 = (Val b, s').
Proof.
rewrite /bind; case: (m s) => [[a|e] s1] //.
by move=> H; exists a, s1.
Qed.

Lemma getattr_val (A : Type) (f : rvm T -> option A) s a s1 :
  getattr f s = (Val a, s1) -> f s = Some a /\ s1 = s.
Proof. by rewrite /getattr; case: (f s) => [v|] // [-> ->]. Qed.

Lemma get_val (A : Type) (f : rvm T -> A) s a s1 :
  get f s = (Val a, s1) -> a = f s /\ s1 = s.
Proof. by case=> -> ->. Qed.

Lemma setattr_val (A : Type) (set : A -> rvm T -> rvm T) v s u s1 :
  setattr set v s = (Val u, s1) -> s1 = set v s.
Proof. by case. Qed.

Lemma lift_val (A : Type) (r : res A) (s : rvm T) a s1 :
  lift r s = (Val a, s1) -> r = Val a /\ s1 = s.
Proof. by case=> -> ->. Qed.

Lemma ret_val (A : Type) (a b : A) (s s1 : rvm T) :
  ret a s = (Val b, s1) -> b = a /\ s1 = s.
Proof. by case=> -> ->. Qed.

End Steps.

(** [self_cases self] exposes the attributes of the instance [self];
    [run_cases] splits on the optional ones that the run reads. *)
Ltac self_cases self :=
  destruct self;
  cbn [n_iter tol alpha threshold_alpha beta beta_fixed bias_used verbose
       verb_freq phi labels relevance_ y alpha_ beta_ m_ alpha_old gamma
       sigma_ bias] in *.

Ltac run_cases :=
  rewrite /bind /getattr /get /setattr /lift /ret /raise /=;
  repeat match goal with
  | |- context [match ?o with Some _ => _ | None => _ end] =>
      is_var o; destruct o; rewrite /=
  end.

(** [mstep H] splits the first statement off a run [H : (x <- m ;; k) s =
    (Val b, s')] and resolves it when it is an attribute access. *)
Ltac mstep H :=
  let a := fresh "v" in
  let s := fresh "s" in
  let H1 := fresh "E" in
  let H2 := fresh "H" in
  move: (bind_val H) => [a [s [H1 H2]]]; clear H; rename H2 into H;
  first
    [ move: (getattr_val H1) => {H1} [H1 ?]; subst s
    | move: (get_val H1) => {H1} [? ?]; subst a s
    | move: (setattr_val H1) => {H1} ?; subst s
    | move: (lift_val H1) => {H1} [H1 ?]; subst s
    | move: (ret_val H1) => {H1} [? ?]; subst a s
    | idtac ].

(** [mcall H s E] splits a method call off the run [H]: [E] is the run of
    the call, [s] the instance it leaves. *)
Ltac mcall H s E :=
  let a := fresh "u" in
  let H2 := fresh "H" in
  move: (bind_val H) => [a [s [E H2]]]; clear H; rename H2 into H.

(** ** predict before fit *)

(** C9, as amended: on an instance on which [fit] was never called,
    [predict] raises [AttributeError] (the attribute [m_] is absent); it
    returns no prediction and leaves the instance as it was. *)
Theorem predict_unfitted_raises_AttributeError (T : Type) (ST : Scalar T)
    (n_iter : nat) (tol alpha threshold_alpha beta : T)
    (beta_fixed bias_used verbose : bool) (verb_freq : nat)
    (X : mat T) (eval_MSE : bool) :
  let self := __init__ n_iter tol alpha threshold_alpha beta
                       beta_fixed bias_used verbose verb_freq in
  RVR.predict X eval_MSE self = (Exc AttributeError, self).
Proof. by []. Qed.

(** C9 as stated fails: the exception raised on the default instance is an
    [AttributeError], not an [UnfittedModelError]. *)
Lemma predict_unfitted_not_UnfittedModelError :
  let r := F64.predict [:: [:: F64.lit 1]] false Examples.default_model in
  r.1 = Exc "AttributeError"%string /\ r.1 <> Exc "UnfittedModelError"%string.
Proof. by split. Qed.

(** ** Boolean indexing *)

Section Indexing.

Context {T : Type} {ST : Scalar T}.

Lemma nonzero_mask (keep : seq bool) : nonzero keep = mask keep (iota 0 (size keep)).
Proof.
by rewrite /nonzero filter_mask -/(mkseq _ _) mkseq_nth.
Qed.

Lemma map_nth_nonzero (A : Type) (x0 : A) (keep : seq bool) (a : seq A) :
  size keep = size a -> [seq nth x0 a i | i <- nonzero keep] = mask keep a.
Proof.
by move=> E; rewrite nonzero_mask map_mask E -/(mkseq _ _) mkseq_nth.
Qed.

Lemma nonzero_bound (keep : seq bool) : all (fun i => i < size keep) (nonzero keep).
Proof.
rewrite /nonzero all_filter; apply/allP => i.
by rewrite mem_iota add0n /= => ->; rewrite implybT.
Qed.

Lemma bool_index_run (A : Type) (a : seq A) (keep : seq bool) :
  size keep = size a -> bool_index a keep = Val (mask keep a).
Proof. by rewrite /bool_index => ->; rewrite eqxx. Qed.

Lemma bool_index_cols_run (P : mat T) (keep : seq bool) :
  all (fun r => size r == size keep) P ->
  bool_index_cols P keep = Val [seq mask keep r | r <- P].
Proof.
move=> H; rewrite /bool_index_cols.
by rewrite (eq_all (a2 := fun r => size r == size keep)) ?H // => r; rewrite eq_sym.
Qed.

Lemma ix_index_run (A : mat T) (keep : seq bool) :
  size A = size keep -> all (fun r => size r == size keep) A ->
  ix_index A keep = Val (mask keep [seq mask keep r | r <- A]).
Proof.
move=> EA Hrows; rewrite /ix_index EA nonzero_bound /=.
have -> : all (fun r : seq T => all (fun j => j < size r) (nonzero keep)) A.
  by apply: sub_all Hrows => r /eqP ->; exact: nonzero_bound.
congr Val.
rewrite -[RHS](map_nth_nonzero [::]) ?size_map //.
apply/eq_in_map => i Hi.
have iA : i < size A.
  by move: Hi; rewrite nonzero_mask => /mem_mask; rewrite mem_iota add0n EA.
rewrite (nth_map [::]) // map_nth_nonzero //.
by move/(all_nthP [::]): Hrows => /(_ i iA) /eqP ->.
Qed.

Lemma size_forced_mask (raw : seq bool) (bu : bool) :
  0 < size raw -> size (forced_mask raw bu) = size raw.
Proof.
rewrite /forced_mask; case: (has id raw) => //.
case: raw => [|b raw] //= _; case: bu => //.
by rewrite size_rcons /but_last /= size_takel.
Qed.

Lemma count_but_last (keep : seq bool) :
  count id (but_last keep) + last false keep = count id keep.
Proof.
case/lastP: keep => [|keep b] //.
rewrite /but_last size_rcons /= -cats1 take_size_cat // last_cat /= count_cat /=.
by rewrite addn0.
Qed.

(** Forced retention: what the mask is when no entry passes the test. *)
Lemma forced_mask_none (raw : seq bool) (bu : bool) :
  0 < size raw -> ~~ has id raw ->
  [/\ nth false (forced_mask raw bu) 0,
      bu -> last false (forced_mask raw bu) &
      count id (forced_mask raw bu) = if bu && (1 < size raw) then 2 else 1].
Proof.
rewrite /forced_mask => r0 Hn; rewrite (negbTE Hn).
case: raw r0 Hn => [|b raw] //= _; rewrite negb_or => /andP [_ Hn].
have Hc : count id raw = 0 by apply/eqP; rewrite -leqn0 leqNgt -has_count.
case: bu => /=; last by rewrite Hc.
case/lastP: raw Hn Hc => [|raw c] //= Hn Hc.
rewrite /but_last /= size_rcons /= -[rcons raw c]cats1 take_size_cat //.
rewrite last_rcons -cats1 count_cat /=; split=> //.
move: Hc; rewrite -cats1 count_cat /= addn0 => /eqP.
by rewrite addn_eq0 => /andP [/eqP -> _].
Qed.

Lemma forced_mask_some (raw : seq bool) (bu : bool) :
  has id raw -> forced_mask raw bu = raw.
Proof. by rewrite /forced_mask => ->. Qed.

Lemma count_forced_mask (raw : seq bool) (bu : bool) :
  0 < size raw -> 0 < count id (forced_mask raw bu).
Proof.
move=> r0; case Hh: (has id raw).
- by rewrite forced_mask_some // -has_count.
- by have [_ _ ->] := forced_mask_none bu r0 (negbT Hh); case: ifP.
Qed.

End Indexing.

(** ** The pruning pass *)

Section Prune.

Context {T : Type} {ST : Scalar T}.

Lemma keep_mask_run (self : rvm T) (k : nat) :
  has_size k (alpha_ self) -> 0 < k ->
  BaseRVM.keep_mask self =
    (Val (forced_mask (below_threshold self) (bias_used self)), self).
Proof.
rewrite /BaseRVM.keep_mask /below_threshold /bind /getattr /get /forced_mask.
case: (alpha_ self) => [a|] //= /eqP <-.
case: (has id _) => //=.
case: a => [|x a] //= _.
by case: (bias_used self).
Qed.

Lemma size_below_threshold (self : rvm T) (k : nat) :
  has_size k (alpha_ self) -> size (below_threshold self) = k.
Proof.
by rewrite /below_threshold; case: (alpha_ self) => [a|] //= /eqP <-; rewrite size_map.
Qed.

Lemma prune_run (self : rvm T) (k : nat) :
  wf k self -> 0 < k -> relevance_rows k self ->
  let keep := forced_mask (below_threshold self) (bias_used self) in
  BaseRVM._prune self = (Val tt, select keep self).
Proof.
move=> Hwf k0 Hrel keep.
have Ha : has_size k (alpha_ self) by case/andP: Hwf.
have Ek : size keep = k.
  by rewrite size_forced_mask (size_below_threshold Ha).
rewrite /BaseRVM._prune /BaseRVM.prune_relevance /BaseRVM.prune_arrays /bind
        (keep_mask_run Ha) // -/keep.
move: Ha => _.
case: self keep Ek Hwf Hrel => ni to al th be bf bu ve vf ph la re yy a_ b_ mm ao ga si bi.
rewrite /wf /relevance_rows /select /= => keep Ek.
move=> /and5P [Ha Hao Hg Hm /andP [HP Hs]] Hr.
case: a_ Ha => [a|] //= /eqP Ea; case: ao Hao => [ao|] //= /eqP Eao.
case: ga Hg => [g|] //= /eqP Eg; case: mm Hm => [m|] //= /eqP Em.
case: ph HP => [P|] //= HP; case: si Hs => [sg|] //= /andP [/eqP Es Hs].
case: re Hr => [R|] //= /eqP ER.
have Hlast : getitem_last keep = Val (last true keep).
  by case: keep Ek k0 => [|b kt] //= <-.
have Hbl : size (but_last keep) = k.-1.
  by rewrite /but_last size_takel Ek // leq_pred.
rewrite -Ek in Ea Eao Eg Em Es HP Hs.
case: bu ER => ER; rewrite /lift /getattr /setattr /ret /= ?Hlast /=.
- case: (last true keep) => /=;
    by rewrite (@bool_index_run _ R) ?Hbl ?ER //= (bool_index_run (esym Ea)) /=
         (bool_index_run (esym Eao)) /= (bool_index_run (esym Eg)) /=
         bool_index_cols_run //= ix_index_run //= (bool_index_run (esym Em)).
- by rewrite (@bool_index_run _ R) ?ER ?Ek //= (bool_index_run (esym Ea)) /=
         (bool_index_run (esym Eao)) /= (bool_index_run (esym Eg)) /=
         bool_index_cols_run //= ix_index_run //= (bool_index_run (esym Em)).
Qed.

Lemma prune_raises (self : rvm T) (k : nat) :
  wf k self -> 0 < k -> ~~ relevance_rows k self ->
  exists e self', BaseRVM._prune self = (Exc e, self').
Proof.
move=> Hwf k0 Hrel.
set keep := forced_mask (below_threshold self) (bias_used self).
have Ha : has_size k (alpha_ self) by case/andP: Hwf.
have Ek : size keep = k.
  by rewrite size_forced_mask (size_below_threshold Ha).
rewrite /BaseRVM._prune /BaseRVM.prune_relevance /BaseRVM.prune_arrays /bind
        (keep_mask_run Ha) // -/keep.
move: Ha => _.
case: self keep Ek Hwf Hrel => ni to al th be bf bu ve vf ph la re yy a_ b_ mm ao ga si bi.
rewrite /wf /relevance_rows /= => keep Ek _.
have Hlast : getitem_last keep = Val (last true keep).
  by case: keep Ek k0 => [|b kt] //= <-.
have Hbl : size (but_last keep) = k.-1.
  by rewrite /but_last size_takel Ek // leq_pred.
case: re => [R|] /=; last first.
  case: bu; rewrite /lift /getattr /setattr /ret /= ?Hlast /=; last by eauto.
  by case: (last true keep) => /=; eauto.
case: bu => HR; rewrite /lift /getattr /setattr /ret /= ?Hlast /=.
- by case: (last true keep) => /=;
    rewrite /bool_index Hbl eq_sym (negbTE HR) /=; eauto.
- by rewrite /bool_index Ek eq_sym (negbTE HR) /=; eauto.
Qed.

Lemma wf_select (self : rvm T) (k : nat) (keep : seq bool) :
  wf k self -> size keep = k -> wf (count id keep) (select keep self).
Proof.
case: self => ni to al th be bf bu ve vf ph la re yy a_ b_ mm ao ga si bi.
rewrite /wf /select /= => /and5P [Ha Hao Hg Hm /andP [HP Hs]] Ek.
case: a_ Ha => [a|] //= /eqP Ea; case: ao Hao => [ao|] //= /eqP Eao.
case: ga Hg => [g|] //= /eqP Eg; case: mm Hm => [m|] //= /eqP Em.
case: ph HP => [P|] //= HP; case: si Hs => [sg|] //= /andP [/eqP Es Hs].
rewrite -Ek in Ea Eao Eg Em Es HP Hs.
rewrite !size_mask ?size_map ?eqxx //=.
apply/andP; split.
- by rewrite all_map; apply: sub_all HP => r /= /eqP Er; rewrite size_mask.
- apply: all_mask; rewrite all_map.
  by apply: sub_all Hs => r /= /eqP Er; rewrite size_mask.
Qed.

Lemma relevance_rows_select (self : rvm T) (k : nat) (keep : seq bool) :
  relevance_rows k self -> size keep = k -> 0 < k ->
  relevance_rows (count id keep) (select keep self).
Proof.
case: self => ni to al th be bf bu ve vf ph la re yy a_ b_ mm ao ga si bi.
rewrite /relevance_rows /select /=.
case: re => [R|] //= /eqP ER Ek k0.
have Hbl : size (but_last keep) = k.-1.
  by rewrite /but_last size_takel Ek // leq_pred.
have El : last true keep = last false keep.
  by case: keep Ek k0 {Hbl} => [|b kt] //= <-.
case: bu ER => /= ER.
- rewrite size_mask ?Hbl // -(count_but_last keep) El.
  by case: (last false keep); rewrite ?addn1 ?addn0.
- by rewrite size_mask ?Ek.
Qed.

End Prune.

(** ** The steps of one iteration *)

Section Iteration.

Context {T : Type} {ST : Scalar T}.

Lemma size_map2 (A B C : Type) (f : A -> B -> C) (u : seq A) (v : seq B) :
  size (map2 f u v) = minn (size u) (size v).
Proof. by rewrite /map2 size_map size_zip. Qed.

Lemma nth_map2 (A B C : Type) (f : A -> B -> C) (a0 : A) (b0 : B) (c0 : C)
    (u : seq A) (v : seq B) (i : nat) :
  size u = size v -> i < size u ->
  nth c0 (map2 f u v) i = f (nth a0 u i) (nth b0 v i).
Proof.
move=> E iu; rewrite /map2 (nth_map (a0, b0)) ?size_zip -?E ?minnn //.
by rewrite nth_zip.
Qed.

Lemma size_np_diagonal (A : mat T) : size (np_diagonal A) = size A.
Proof. by rewrite /np_diagonal size_map size_iota. Qed.

Lemma nth_np_diagonal (A : mat T) (i : nat) :
  i < size A -> nth fzero (np_diagonal A) i = nth fzero (nth [::] A i) i.
Proof.
by move=> iA; rewrite /np_diagonal (nth_map 0) ?size_iota // nth_iota.
Qed.

Lemma all_map2 (A B C : Type) (f : A -> B -> C)
    (pa : pred A) (pb : pred B) (pc : pred C) (u : seq A) (v : seq B) :
  (forall x z, pa x -> pb z -> pc (f x z)) ->
  all pa u -> all pb v -> all pc (map2 f u v).
Proof.
move=> Hf; elim: u v => [|x u IH] [|z v] //= /andP [px pu] /andP [pz pv].
by rewrite Hf //=; exact: IH.
Qed.

Lemma ncols_rows (P : mat T) (k : nat) :
  0 < size P -> all (fun r => size r == k) P -> ncols P = k.
Proof. by case: P => [|r P] //= _ /andP [/eqP]. Qed.

Lemma shape_np_T (P : mat T) (k : nat) :
  0 < size P -> all (fun r => size r == k) P ->
  size (np_T P) = k /\ all (fun r => size r == size P) (np_T P).
Proof.
move=> P0 HP; rewrite /np_T size_map size_iota (ncols_rows P0 HP); split=> //.
by rewrite all_map; apply/allP => j _ /=; rewrite size_map.
Qed.

Lemma shape_np_dot (A B : mat T) (k : nat) :
  0 < size B -> all (fun r => size r == k) B ->
  size (np_dot A B) = size A /\ all (fun r => size r == k) (np_dot A B).
Proof.
move=> B0 HB; rewrite /np_dot size_map; split=> //.
rewrite all_map; apply: (@sub_all _ predT); last exact: all_predT.
by move=> r _ /=; rewrite size_map (shape_np_T B0 HB).1.
Qed.

Lemma shape_np_diag (a : vec T) :
  size (np_diag a) = size a /\ all (fun r => size r == size a) (np_diag a).
Proof.
rewrite /np_diag size_map size_iota; split=> //.
by rewrite all_map; apply/allP => i _ /=; rewrite size_map size_iota.
Qed.

Lemma shape_precision (a : vec T) (b : T) (P : mat T) (k : nat) :
  size a = k -> 0 < k -> 0 < size P -> all (fun r => size r == k) P ->
  size (precision a b P) = k /\ all (fun r => size r == k) (precision a b P).
Proof.
move=> Ea k0 P0 HP.
have [ET HT] := shape_np_T P0 HP.
have [ED HD] : size (np_dot (np_T P) P) = k /\
               all (fun r => size r == k) (np_dot (np_T P) P).
  by have [-> ?] := shape_np_dot (np_T P) P0 HP.
have [Ea1 Ha1] := shape_np_diag a.
rewrite /precision /madd size_map2 Ea1 /mscale size_map ED Ea minnn; split=> //.
apply: (@all_map2 _ _ _ _ (fun r => size r == k) (fun r => size r == k)).
- by move=> r1 r2 /eqP E1 /eqP E2; rewrite size_map2 E1 E2 minnn.
- by rewrite -Ea.
- by rewrite all_map; apply: sub_all HD => r /= /eqP <-; rewrite size_map.
Qed.

Lemma size_posterior_mean (b : T) (sg P : mat T) (t : vec T) :
  size (posterior_mean b sg P t) = size sg.
Proof. by rewrite /posterior_mean /vscale /np_dot_mv !size_map. Qed.

Lemma size_new_gamma (a : vec T) (sg : mat T) :
  size (new_gamma a sg) = minn (size a) (size sg).
Proof. by rewrite /new_gamma size_map2 size_np_diagonal. Qed.

Lemma size_new_alpha (g m : vec T) :
  size (new_alpha g m) = minn (size g) (size m).
Proof. by rewrite /new_alpha size_map2 size_map. Qed.

Lemma update_alpha_inv (self self' : rvm T) (u : unit) :
  BaseRVM.update_alpha self = (Val u, self') ->
  exists a sg m,
    [/\ alpha_ self = Some a, sigma_ self = Some sg, m_ self = Some m &
        self' = set_alpha_ (new_alpha (new_gamma a sg) m)
                           (set_gamma (new_gamma a sg) self)].
Proof.
rewrite /BaseRVM.update_alpha; self_cases self; run_cases => //.
by case=> _ <-; do 3!eexists; split.
Qed.

Lemma update_beta_inv (n_samples : nat) (t : vec T) (self self' : rvm T) (u : unit) :
  BaseRVM.update_beta n_samples t self = (Val u, self') ->
  if beta_fixed self then self' = self
  else exists g P m,
    [/\ gamma self = Some g, phi self = Some P, m_ self = Some m &
        self' = set_beta_ (new_beta n_samples t g P m) self].
Proof.
rewrite /BaseRVM.update_beta; self_cases self.
case: beta_fixed0; run_cases => //; first by case.
by case=> _ <-; do 3!eexists; split.
Qed.

Lemma report_inv (i : nat) (self self' : rvm T) (u : unit) :
  BaseRVM.report i self = (Val u, self') -> self' = self.
Proof.
rewrite /BaseRVM.report; self_cases self.
by case: verbose0; run_cases; [case: (_ == _)|] => //; case.
Qed.

Lemma converged_inv (i : nat) (self self' : rvm T) (b : bool) :
  BaseRVM.converged i self = (Val b, self') ->
  exists a ao delta,
    [/\ alpha_ self = Some a, alpha_old self = Some ao,
        max_abs_change a ao = Val delta,
        b = flt delta (tol self) && (1 < i) &
        self' = if b then self else set_alpha_old a self].
Proof.
rewrite /BaseRVM.converged /max_abs_change; self_cases self; run_cases => //.
case Ed: (np_amax _) => [delta|e] //=.
by case E: (flt delta tol0 && (1 < i)) => /= -[<- <-];
  exists v, v0, delta; split; rewrite ?E.
Qed.

Lemma posterior_inv (linalg_inv : mat T -> res (mat T)) (self self' : rvm T) (u : unit) :
  RVR._posterior linalg_inv self = (Val u, self') ->
  exists a b P t sg,
    [/\ [/\ alpha_ self = Some a, beta_ self = Some b, phi self = Some P &
            y self = Some t],
        linalg_inv (precision a b P) = Val sg &
        self' = set_m_ (posterior_mean b sg P t) (set_sigma_ sg self)].
Proof.
rewrite /RVR._posterior /precision /posterior_mean; self_cases self; run_cases => //.
- case E: (linalg_inv _) => [sg|e] //= [_ <-].
  by exists v, t, m, v0, sg; split.
- by case: (linalg_inv _).
Qed.

(** The instance on which [_prune] runs, one iteration after [self]. *)
Lemma iteration_inv (linalg_inv : mat T -> res (mat T)) (n_samples : nat)
    (t : vec T) (i k : nat) (self self' : rvm T) (b : bool) :
  inv_shape linalg_inv -> loop_inv k self ->
  BaseRVM.iteration (RVR._posterior linalg_inv) n_samples t i self = (Val b, self') ->
  exists s1,
    let keep := forced_mask (below_threshold s1) (bias_used s1) in
    [/\ wf k s1, relevance_rows k s1,
        BaseRVM._prune s1 = (Val tt, select keep s1),
        BaseRVM.converged i (select keep s1) = (Val b, self') &
        [/\ labels s1 = labels self, bias_used s1 = bias_used self,
            relevance_ s1 = relevance_ self & phi s1 = phi self]].
Proof.
move=> Hinv Hl; rewrite /BaseRVM.iteration => H.
mcall H sp E; have [a [be [P [y0 [sg [[Ea Eb EP Ey] Einv Es]]]]]] := posterior_inv E.
subst sp; move=> {E}.
mcall H sa E; have [a' [sg' [m' [Ea' Esg' Em' Es]]]] := update_alpha_inv E.
subst sa; move=> {E}.
mcall H s0 E; have Hb := update_beta_inv E; move=> {E}.
mcall H s2 E; mcall H s3 E0; have ? := report_inv E0; subst s3; move=> {E0}.
have k0 : 0 < k by case/andP: Hl.
have [Esz Hrows] := Hinv _ _ Einv.
have Hwf : wf k s0 /\ [/\ labels s0 = labels self, bias_used s0 = bias_used self,
            relevance_ s0 = relevance_ self & phi s0 = phi self].
  move: Hl Hb Ea Eb EP Ey Ea' Esg' Em' Einv Esz Hrows.
  case: (self) => ni to al th be0 bf bu ve vf ph la re yy a_ b_ mm ao ga si bi.
  rewrite /loop_inv /wf /= => /and4P [_ Ha Hao HP] Hb Ea Eb EP Ey.
  subst a_ b_ ph yy => -[?] [?] [?]; subst a' sg' m' => Einv Esz Hrows.
  case: ao Hao Hb Einv => [ao|] //= /eqP Eao Hb Einv.
  move: Ha HP => /= /eqP Ea /andP [P0 HP].
  have [Ep Hp] := shape_precision be Ea k0 P0 HP.
  rewrite Ep in Esz Hrows.
  have Eg : size (new_gamma a sg) = k by rewrite size_new_gamma Ea Esz minnn.
  have Em : size (posterior_mean be sg P y0) = k by rewrite size_posterior_mean.
  have En : size (new_alpha (new_gamma a sg) (posterior_mean be sg P y0)) = k.
    by rewrite size_new_alpha Eg Em minnn.
  case: bf Hb => /= Hb.
  - by subst s0; rewrite /= En Eao Eg Em Esz !eqxx HP Hrows.
  - case: Hb => g0 [P1 [m1 [_ _ _ ->]]] /=.
    by rewrite /= En Eao Eg Em Esz !eqxx HP Hrows.
case: Hwf => Hwf Hframe.
exists s0 => /=.
case Hrel: (relevance_rows k s0).
- move: E H; rewrite (prune_run Hwf k0 Hrel) => -[_ <-] H.
  by split.
- have [e [s'' Hr]] := prune_raises Hwf k0 (negbT Hrel).
  by rewrite Hr in E.
Qed.

Lemma set_alpha_old_frame (self : rvm T) (a : vec T) (k : nat) :
  alpha_ self = Some a -> wf k self ->
  [/\ wf k (set_alpha_old a self),
      relevance_rows k (set_alpha_old a self) = relevance_rows k self,
      phi (set_alpha_old a self) = phi self,
      labels (set_alpha_old a self) = labels self &
      bias_used (set_alpha_old a self) = bias_used self].
Proof.
case: self => ni to al th be bf bu ve vf ph la re yy a_ b_ mm ao ga si bi /= ->.
by rewrite /wf /= => /and3P [-> _ ->].
Qed.

Lemma has_rows_cols_select (self : rvm T) (k : nat) (keep : seq bool) :
  has_rows_cols k (phi self) -> size keep = k ->
  has_rows_cols (count id keep) (phi (select keep self)).
Proof.
rewrite /select /=; case: (phi self) => [P|] //= /andP [P0 HP] Ek.
rewrite size_map P0 /= all_map.
by apply: sub_all HP => r /= /eqP Er; rewrite size_mask ?Ek ?Er.
Qed.

(** What one completed iteration leaves: the arrays have one common
    length [k'], between 1 and the length [k] before it. *)
Lemma iteration_post (linalg_inv : mat T -> res (mat T)) (n_samples : nat)
    (t : vec T) (i k : nat) (self self' : rvm T) (b : bool) :
  inv_shape linalg_inv -> loop_inv k self ->
  BaseRVM.iteration (RVR._posterior linalg_inv) n_samples t i self = (Val b, self') ->
  exists k',
    [/\ 0 < k' <= k, wf k' self', loop_inv k' self', relevance_rows k' self' &
        labels self' = labels self /\ (bias_used self' -> bias_used self)].
Proof.
move=> Hinv Hl H.
have [s1 /= [Hwf Hrel Hp Hc [El Eb Er Ep]]] := iteration_inv Hinv Hl H.
set keep := forced_mask _ _ in Hp Hc.
have k0 : 0 < k by case/andP: Hl.
have Ha : has_size k (alpha_ s1) by case/andP: Hwf.
have Ek : size keep = k by rewrite size_forced_mask (size_below_threshold Ha).
have Hk' : 0 < count id keep <= k.
  by rewrite count_forced_mask ?(size_below_threshold Ha) // -Ek count_size.
have Hwf' := wf_select Hwf Ek.
have Hrel' := relevance_rows_select Hrel Ek k0.
have HP' : has_rows_cols (count id keep) (phi (select keep s1)).
  by apply: (@has_rows_cols_select _ k) => //; rewrite Ep; case/and4P: Hl.
have [a [ao [delta [Ea Eao _ _ Es']]]] := converged_inv Hc.
exists (count id keep).
have Hsel : [/\ wf (count id keep) self', relevance_rows (count id keep) self',
               has_rows_cols (count id keep) (phi self'),
               labels self' = labels s1 & bias_used self' -> bias_used s1].
  rewrite Es'; case: (b); first by split=> //= /andP [].
  have [Hw -> -> -> ->] := set_alpha_old_frame Ea Hwf'.
  by split=> //= /andP [].
case: Hsel => Hw Hr HP Hl' Hb'; split=> //.
- rewrite /loop_inv HP; case/andP: Hk' => -> _ /=.
  by case/and3P: Hw => -> -> _.
- by rewrite Hl' El -Eb.
Qed.

Section Loop.

Variable linalg_inv : mat T -> res (mat T).
Hypothesis Hinv : inv_shape linalg_inv.
Variables (n_samples : nat) (t : vec T).

Let body := BaseRVM.iteration (RVR._posterior linalg_inv) n_samples t.

Lemma for_range_iter_inv (n i k : nat) (self self' : rvm T) (u : unit) :
  iter_inv k self ->
  BaseRVM.for_range body i n self = (Val u, self') ->
  exists k',
    [/\ 0 < k' <= k, iter_inv k' self', labels self' = labels self &
        bias_used self' -> bias_used self].
Proof.
elim: n i k self => [|n IH] i k self Hk /=.
  case=> _ <-; exists k; split=> //.
  by rewrite leqnn andbT; case/and3P: Hk => /andP [].
move=> H; mcall H s1 E.
have Hl : loop_inv k self by case/and3P: Hk.
have [k1 [/andP [k10 k1k] Hw1 Hl1 Hr1 [El1 Eb1]]] := iteration_post Hinv Hl E.
have Hk1 : iter_inv k1 s1 by rewrite /iter_inv Hl1 Hw1 Hr1.
case: u0 H E => H E.
- move: (ret_val H) => [_ ->]; exists k1; split=> //.
  by rewrite k10 k1k.
- have [k' [/andP [k'0 k'k] Hk' El' Eb']] := IH _ _ _ Hk1 H.
  exists k'; split=> //.
  + by rewrite k'0 (leq_trans k'k k1k).
  + by rewrite El'.
  + by move=> /Eb'.
Qed.

Lemma for_range_post (n i k : nat) (self self' : rvm T) (u : unit) :
  loop_inv k self -> 0 < n ->
  BaseRVM.for_range body i n self = (Val u, self') ->
  exists k',
    [/\ 0 < k' <= k, iter_inv k' self', labels self' = labels self &
        bias_used self' -> bias_used self].
Proof.
case: n => [|n] // Hl _ /= H; mcall H s1 E.
have [k1 [/andP [k10 k1k] Hw1 Hl1 Hr1 [El1 Eb1]]] := iteration_post Hinv Hl E.
have Hk1 : iter_inv k1 s1 by rewrite /iter_inv Hl1 Hw1 Hr1.
have [k' [/andP [k'0 k'k] Hk' El' Eb']] :
  exists k', [/\ 0 < k' <= k1, iter_inv k' self', labels self' = labels s1 &
                 bias_used self' -> bias_used s1].
  case: u0 H E => H E; last exact: for_range_iter_inv H.
  by move: (ret_val H) => [_ ->]; exists k1; split=> //; rewrite k10 leqnn.
exists k'; split=> //.
- by rewrite k'0 (leq_trans k'k k1k).
- by rewrite El'.
- by move=> /Eb'.
Qed.

End Loop.

(** ** fit as a whole *)

Lemma check_X_y_inv (X X' : mat T) (t t' : vec T) :
  check_X_y X t = Val (X', t') ->
  [/\ X' = X, t' = t, 0 < size X, 0 < ncols X &
      size t = size X /\ all (fun r => size r == ncols X) X].
Proof.
rewrite /check_X_y; case: eqP => // /eqP X0.
case HX: (all _ X) => //=; case: eqP => // /eqP k0.
case: eqP => //= Et; case: (_ && _) => //= -[<- <-].
by split=> //; rewrite lt0n.
Qed.

Lemma set_bias_term_inv (self self' : rvm T) (u : unit) :
  BaseRVM.set_bias_term self = (Val u, self') ->
  exists v, self' = set_bias v self.
Proof.
rewrite /BaseRVM.set_bias_term; self_cases self.
case: bias_used0; run_cases => //; last by case=> _ <-; eexists.
by case: (getitem_last _) => //= x [_ <-]; eexists.
Qed.

Lemma fit_inv (linalg_inv : mat T -> res (mat T)) (X : mat T) (t : vec T)
    (X_labels : seq string) (self self' : rvm T) (u : unit) :
  RVR.fit linalg_inv X t X_labels self = (Val u, self') ->
  exists s2 v,
    [/\ check_X_y X t = Val (X, t),
        BaseRVM.for_range
          (BaseRVM.iteration (RVR._posterior linalg_inv) (size X) t)
          0 (n_iter self) (loop_entry X t X_labels self) = (Val tt, s2) &
        self' = set_bias v s2].
Proof.
rewrite /RVR.fit /BaseRVM.fit => H.
mcall H s0 E; move: (lift_val E) => [Ec ?]; subst s0.
case: u0 Ec H {E} => X' t' Ec.
have [? ? _ _ _] := check_X_y_inv Ec; subst X' t' => /= H.
have El : n_iter (loop_entry X t X_labels self) = n_iter self.
  by case: (self).
move: H; rewrite -El.
have -> : forall k : rvm T -> res unit * rvm T,
    bind (setattr set_phi X) (fun _ =>
     bind (setattr set_labels X_labels) (fun _ =>
      bind (getattr phi) (fun P =>
       bind (setattr set_relevance_ X) (fun _ =>
        bind (setattr set_y t) (fun _ =>
         bind (get alpha) (fun a0 =>
          bind (setattr set_alpha_ (vscale a0 (np_ones (ncols P)))) (fun _ =>
           bind (get beta) (fun b0 =>
            bind (setattr set_beta_ b0) (fun _ =>
             bind (setattr set_m_ (np_zeros (ncols P))) (fun _ =>
              bind (getattr alpha_) (fun a =>
               bind (setattr set_alpha_old a) (fun _ => k)))))))))))) self =
    k (loop_entry X t X_labels self).
  by move=> k; case: (self).
move=> H; mstep H; mcall H s2 E.
have [w Hw] := set_bias_term_inv H.
by exists s2, w; split=> //; move: E; case: (u0).
Qed.

Lemma set_bias_frame (self : rvm T) (v : option T) (k : nat) :
  [/\ wf k (set_bias v self) = wf k self,
      loop_inv k (set_bias v self) = loop_inv k self,
      relevance_rows k (set_bias v self) = relevance_rows k self,
      labels (set_bias v self) = labels self &
      bias_used (set_bias v self) = bias_used self].
Proof. by case: self. Qed.

Lemma loop_entry_inv (X : mat T) (t : vec T) (X_labels : seq string) (self : rvm T) :
  check_X_y X t = Val (X, t) ->
  [/\ loop_inv (ncols X) (loop_entry X t X_labels self),
      labels (loop_entry X t X_labels self) = Some X_labels,
      bias_used (loop_entry X t X_labels self) = bias_used self &
      n_iter (loop_entry X t X_labels self) = n_iter self].
Proof.
move=> /check_X_y_inv [_ _ X0 k0 [_ HX]].
case: self => ni to al th be bf bu ve vf ph la re yy a_ b_ mm ao ga si bi.
by rewrite /loop_inv /= k0 X0 HX /vscale /np_ones size_map size_nseq eqxx.
Qed.

(** After a [fit] that returns, the arrays have one common length between
    1 and the number of columns of [X]. *)
Lemma fit_post (linalg_inv : mat T -> res (mat T)) (X : mat T) (t : vec T)
    (X_labels : seq string) (self self' : rvm T) (u : unit) :
  inv_shape linalg_inv ->
  RVR.fit linalg_inv X t X_labels self = (Val u, self') ->
  exists k',
    [/\ 0 < k' <= ncols X, loop_inv k' self', labels self' = Some X_labels,
        bias_used self' -> bias_used self &
        0 < n_iter self -> wf k' self' && relevance_rows k' self'].
Proof.
move=> Hinv /fit_inv [s2 [v [Ec Hloop ->]]].
have [Hl El Eb En] := loop_entry_inv X_labels self Ec.
have [_ _ _ k0 _] := check_X_y_inv Ec.
case: (posnP (n_iter self)) => [n0|npos].
- move: Hloop; rewrite n0 /= => -[<-]; exists (ncols X).
  by have [_ -> _ -> ->] := set_bias_frame (loop_entry X t X_labels self) v (ncols X);
     rewrite k0 leqnn Hl El Eb.
- have [k' [Hk' /and3P [Hl' Hw' Hr'] El' Eb']] := for_range_post Hinv Hl npos Hloop.
  exists k'.
  have [-> -> -> -> ->] := set_bias_frame s2 v k'.
  by rewrite Hk' Hl' Hw' Hr' El' El; split=> // /Eb'; rewrite Eb.
Qed.

End Iteration.

(** ** The binary64 instance *)

Section Float64.

Lemma all_take_drop (A : Type) (a : pred A) (s : seq A) (p : nat) :
  all a s -> all a (take p s) && all a (drop p s).
Proof. by rewrite -all_cat cat_take_drop. Qed.

Lemma argmax_abs_bound (j best : nat) (bestv : F64.t) (i : nat) (rows : mat F64.t) :
  F64.argmax_abs j best bestv i rows = best \/
  i <= F64.argmax_abs j best bestv i rows < i + size rows.
Proof.
elim: rows best bestv i => [|r rows IH] best bestv i /=; first by left.
case: (SFltb _ _).
- case: (IH i (SFabs (nth F64.zero r j)) i.+1) => [->|/andP [H1 H2]]; right.
    by rewrite leqnn addnS ltnS leq_addr.
  by rewrite (ltnW H1) addnS -addSn.
- case: (IH best bestv i.+1) => [->|/andP [H1 H2]]; [by left|right].
  by rewrite (ltnW H1) addnS -addSn.
Qed.

Lemma size_eliminate (j w : nat) (p r : vec F64.t) :
  size p = w -> size r = w -> size (F64.eliminate j p r) = w.
Proof. by move=> Ep Er; rewrite /F64.eliminate size_map2 Ep Er minnn. Qed.

Lemma gauss_jordan_shape (w n j : nat) (done todo B : mat F64.t) :
  size todo = n ->
  all (fun r => size r == w) done -> all (fun r => size r == w) todo ->
  F64.gauss_jordan n j done todo = Val B ->
  size B = size done + n /\ all (fun r => size r == w) B.
Proof.
elim: n j done todo => [|n IH] j done todo /= En Hd Ht.
  by case=> <-; rewrite addn0.
set p := F64.argmax_abs _ _ _ _ _.
have Hp : p < size todo.
  rewrite /p; case: (argmax_abs_bound j 0 (SFabs (nth F64.zero (head [::] todo) j)) 0 todo).
    by move=> ->; rewrite En.
  by case/andP.
set prow := nth [::] todo p.
have Eprow : size prow = w by move/(all_nthP [::]): Ht => /(_ p Hp) /eqP.
case: (SFeqb _ _) => //.
set prow' := [seq _ | x <- prow].
have Eprow' : size prow' = w by rewrite size_map.
have Hel : forall rows : mat F64.t, all (fun r => size r == w) rows ->
    all (fun r => size r == w) [seq F64.eliminate j prow' r | r <- rows].
  move=> rows Hr; rewrite all_map; apply: sub_all Hr => r /= /eqP Er.
  by rewrite (@size_eliminate j w).
have /andP [Ht1 Ht2] := all_take_drop p Ht.
have /andP [_ Ht3] := all_take_drop 1 Ht2.
rewrite drop_drop add1n in Ht3.
move=> /IH [].
- rewrite size_map size_cat size_takel ?(ltnW Hp) // size_drop En subSS.
  by rewrite subnKC // -ltnS -En.
- by rewrite all_rcons Eprow' eqxx /=; exact: Hel.
- by apply: Hel; rewrite all_cat Ht1 Ht3.
- by rewrite size_rcons size_map addSnnS => ->.
Qed.

Lemma F64_inv_shape : inv_shape F64.inv.
Proof.
move=> A B; rewrite /F64.inv.
case HA: (all _ A) => //=.
case HG: (F64.gauss_jordan _ _ _ _) => [G|] //= [<-].
have [] := @gauss_jordan_shape (size A + size A) _ _ _ _ _ _ _ _ HG => //.
- by rewrite size_map size_iota.
- rewrite all_map; apply/allP => i; rewrite mem_iota add0n /= => iA.
  rewrite size_cat size_map size_iota.
  by move/(all_nthP [::]): HA => /(_ i iA) /eqP ->.
rewrite add0n size_map => -> HG'; split=> //.
rewrite all_map; apply: sub_all HG' => r /= /eqP Er.
by rewrite size_drop Er addnK.
Qed.

End Float64.

(** ** Configuration attributes *)

Section Frame.

Context {T : Type} {ST : Scalar T}.

Lemma cfg_le_refl (self : rvm T) : cfg_le self self.
Proof. by split; split. Qed.

Lemma cfg_le_trans (s1 s2 s3 : rvm T) : cfg_le s1 s2 -> cfg_le s2 s3 -> cfg_le s1 s3.
Proof.
move=> [[a1 a2 a3 a4 a5] [a6 a7 a8 a9]] [[b1 b2 b3 b4 b5] [b6 b7 b8 b9]].
split; split; try congruence.
by move=> /b9 /a9.
Qed.

Lemma cfg_eq_refl (self : rvm T) : cfg_eq self self.
Proof. by split=> //; exact: cfg_le_refl. Qed.

Lemma cfg_eq_trans (s1 s2 s3 : rvm T) : cfg_eq s1 s2 -> cfg_eq s2 s3 -> cfg_eq s1 s3.
Proof.
move=> [a e1] [b e2]; split; first exact: cfg_le_trans a b.
by rewrite e2.
Qed.

Lemma cfg_eq_le (s1 s2 : rvm T) : cfg_eq s1 s2 -> cfg_le s1 s2.
Proof. by case. Qed.

Section Keeps.

Variable R : rvm T -> rvm T -> Prop.
Hypothesis R_refl : forall s, R s s.
Hypothesis R_trans : forall s1 s2 s3, R s1 s2 -> R s2 s3 -> R s1 s3.

Lemma keeps_bind (A B : Type) (m : M T A) (k : A -> M T B) :
  keeps R m -> (forall a, keeps R (k a)) -> keeps R (bind m k).
Proof.
move=> Hm Hk s r s'; rewrite /bind.
case E: (m s) => [[a|e] s1]; first by move=> /Hk; apply: R_trans; exact: Hm E.
by case=> _ <-; exact: Hm E.
Qed.

Lemma keeps_ret (A : Type) (a : A) : keeps R (ret a).
Proof. by move=> s r s' [_ <-]. Qed.

Lemma keeps_raise (A : Type) (e : exn) : keeps R (@raise T A e).
Proof. by move=> s r s' [_ <-]. Qed.

Lemma keeps_lift (A : Type) (x : res A) : keeps R (lift x).
Proof. by move=> s r s' [_ <-]. Qed.

Lemma keeps_get (A : Type) (f : rvm T -> A) : keeps R (get f).
Proof. by move=> s r s' [_ <-]. Qed.

Lemma keeps_getattr (A : Type) (f : rvm T -> option A) : keeps R (getattr f).
Proof. by move=> s r s' [_ <-]. Qed.

Lemma keeps_setattr (A : Type) (set : A -> rvm T -> rvm T) (v : A) :
  (forall s, R s (set v s)) -> keeps R (setattr set v).
Proof. by move=> H s r s' [_ <-]. Qed.

Lemma keeps_if (A : Type) (b : bool) (m1 m2 : M T A) :
  keeps R m1 -> keeps R m2 -> keeps R (if b then m1 else m2).
Proof. by case: b. Qed.

End Keeps.

Lemma keeps_weaken (R1 R2 : rvm T -> rvm T -> Prop) (A : Type) (m : M T A) :
  (forall s s', R1 s s' -> R2 s s') -> keeps R1 m -> keeps R2 m.
Proof. by move=> H Hm s r s' /Hm /H. Qed.

End Frame.

(** [frame] discharges [keeps R m] for a method [m] built from attribute
    reads and the assignments for which [R] is immediate. *)
Ltac frame_step :=
  first
    [ apply: keeps_bind => // [|?]
    | apply: keeps_ret => //
    | apply: keeps_raise => //
    | apply: keeps_lift => //
    | apply: keeps_get => //
    | apply: keeps_getattr => //
    | apply: keeps_if
    | apply: keeps_setattr => // ; by case ].

Ltac frame := repeat frame_step.

Section FrameMethods.

Context {T : Type} {ST : Scalar T}.

Let eq_refl' := @cfg_eq_refl T.
Let eq_trans' := @cfg_eq_trans T.
Let le_refl' := @cfg_le_refl T.
Let le_trans' := @cfg_le_trans T.

Lemma keep_mask_cfg : keeps cfg_eq (@BaseRVM.keep_mask T ST).
Proof.
rewrite /BaseRVM.keep_mask.
apply: keeps_bind => // [|a]; first exact: keeps_getattr.
apply: keeps_bind => // [|thr]; first exact: keeps_get.
by case: ifP => _; frame.
Qed.

Lemma cfg_le_set_bias_used (s : rvm T) : cfg_le s (set_bias_used false s).
Proof. by case: s; split; split. Qed.

Lemma prune_arrays_cfg (keep : seq bool) : keeps cfg_eq (@BaseRVM.prune_arrays T ST keep).
Proof. by rewrite /BaseRVM.prune_arrays; frame; split=> //; split; split. Qed.

Lemma prune_relevance_cfg (keep : seq bool) :
  keeps cfg_le (@BaseRVM.prune_relevance T keep).
Proof.
rewrite /BaseRVM.prune_relevance.
apply: keeps_bind => // [|bu]; first exact: keeps_get.
case: bu; last by frame; split; split.
apply: keeps_bind => // [|kl]; first exact: keeps_lift.
apply: keeps_bind => // [|_]; last by frame; split; split.
case: kl => /=; first exact: keeps_ret.
by apply: keeps_setattr => s; exact: cfg_le_set_bias_used.
Qed.

Lemma prune_cfg : keeps cfg_le (@BaseRVM._prune T ST).
Proof.
rewrite /BaseRVM._prune.
apply: keeps_bind => // [|keep].
  exact: (keeps_weaken (@cfg_eq_le _) keep_mask_cfg).
apply: keeps_bind => // [|_]; first exact: prune_relevance_cfg.
exact: (keeps_weaken (@cfg_eq_le _) (@prune_arrays_cfg keep)).
Qed.

(** The flag after [_prune], whether the pass completes or raises later. *)
Lemma prune_relevance_flag (keep : seq bool) (self self' : rvm T) (r : res unit) :
  BaseRVM.prune_relevance keep self = (r, self') ->
  bias_used self' = bias_used self && last true keep.
Proof.
rewrite /BaseRVM.prune_relevance; self_cases self.
case: bias_used0; rewrite /bind /get /lift /=; last first.
  by run_cases; [case: (bool_index _ _) => [?|?] /=|]; case=> _ <-.
case: keep => [|b kt] /=; first by case=> _ <-.
case: (last b kt) => /=; run_cases;
  by [case: (bool_index _ _) => [?|?] /=; case=> _ <- | case=> _ <-].
Qed.

Lemma prune_flag (keep : seq bool) (self self' : rvm T) (r : res unit) :
  BaseRVM.keep_mask self = (Val keep, self) ->
  BaseRVM._prune self = (r, self') ->
  bias_used self' = bias_used self && last true keep.
Proof.
rewrite /BaseRVM._prune {1}/bind => -> /=.
rewrite /bind; case E: (BaseRVM.prune_relevance keep self) => [[u|e] s1].
- move=> /prune_arrays_cfg [_ ->]; exact: prune_relevance_flag E.
- case=> _ <-; exact: prune_relevance_flag E.
Qed.

Lemma update_alpha_cfg : keeps cfg_eq (@BaseRVM.update_alpha T ST).
Proof. by rewrite /BaseRVM.update_alpha; frame; split=> //; split; split. Qed.

Lemma update_beta_cfg (n : nat) (t : vec T) : keeps cfg_eq (BaseRVM.update_beta n t).
Proof.
rewrite /BaseRVM.update_beta; apply: keeps_bind => // [|bf]; first exact: keeps_get.
by case: bf => /=; frame; split=> //; split; split.
Qed.

Lemma report_cfg (i : nat) : keeps cfg_eq (@BaseRVM.report T i).
Proof.
rewrite /BaseRVM.report; apply: keeps_bind => // [|v]; first exact: keeps_get.
case: v; last exact: keeps_ret.
apply: keeps_bind => // [|f]; first exact: keeps_get.
by case: ifP => _; [exact: keeps_raise | exact: keeps_ret].
Qed.

Lemma converged_cfg (i : nat) : keeps cfg_eq (@BaseRVM.converged T ST i).
Proof.
rewrite /BaseRVM.converged; do 4![apply: keeps_bind => // [|?]; first by frame].
by case: ifP => _; frame; split=> //; split; split.
Qed.

Lemma posterior_cfg (linalg_inv : mat T -> res (mat T)) :
  keeps cfg_eq (RVR._posterior linalg_inv).
Proof. by rewrite /RVR._posterior; frame; split=> //; split; split. Qed.

Lemma iteration_cfg (linalg_inv : mat T -> res (mat T)) (n i : nat) (t : vec T) :
  keeps cfg_le (BaseRVM.iteration (RVR._posterior linalg_inv) n t i).
Proof.
rewrite /BaseRVM.iteration.
apply: keeps_bind => // [|_].
  exact: (keeps_weaken (@cfg_eq_le _) (@posterior_cfg linalg_inv)).
apply: keeps_bind => // [|_].
  exact: (keeps_weaken (@cfg_eq_le _) update_alpha_cfg).
apply: keeps_bind => // [|_].
  exact: (keeps_weaken (@cfg_eq_le _) (@update_beta_cfg n t)).
apply: keeps_bind => // [|_]; first exact: prune_cfg.
apply: keeps_bind => // [|_].
  exact: (keeps_weaken (@cfg_eq_le _) (@report_cfg i)).
exact: (keeps_weaken (@cfg_eq_le _) (@converged_cfg i)).
Qed.

Lemma for_range_cfg (body : nat -> M T bool) (i n : nat) :
  (forall j, keeps cfg_le (body j)) -> keeps cfg_le (BaseRVM.for_range body i n).
Proof.
move=> Hb; elim: n i => [|n IH] i /=; first exact: keeps_ret.
apply: keeps_bind => // stop.
by case: stop; [exact: keeps_ret | exact: IH].
Qed.

Lemma set_bias_term_cfg : keeps cfg_eq (@BaseRVM.set_bias_term T).
Proof.
rewrite /BaseRVM.set_bias_term; apply: keeps_bind => // [|bu]; first exact: keeps_get.
by case: bu; frame; split=> //; split; split.
Qed.

Lemma fit_cfg (linalg_inv : mat T -> res (mat T)) (X : mat T) (t : vec T)
    (X_labels : seq string) :
  keeps cfg_le (RVR.fit linalg_inv X t X_labels).
Proof.
rewrite /RVR.fit /BaseRVM.fit.
apply: keeps_bind => // [|Xy]; first exact: keeps_lift.
do 12![apply: keeps_bind => // [|?]; first by frame; split; split].
apply: keeps_bind => // [|n]; first exact: keeps_get.
apply: keeps_bind => // [|_].
  by apply: for_range_cfg => j; exact: iteration_cfg.
exact: (keeps_weaken (@cfg_eq_le _) set_bias_term_cfg).
Qed.

End FrameMethods.

(** ** Entries of the array operations *)

Section Entries.

Context {T : Type} {ST : Scalar T}.

Lemma nth_np_T (P : mat T) (j : nat) :
  j < ncols P -> nth [::] (np_T P) j = [seq nth fzero r j | r <- P].
Proof.
by move=> jk; rewrite /np_T (nth_map 0) ?size_iota // nth_iota.
Qed.

Lemma nth_np_diag (a : vec T) (i j : nat) :
  i < size a -> j < size a ->
  nth fzero (nth [::] (np_diag a) i) j = if i == j then nth fzero a i else fzero.
Proof.
move=> ia ja; rewrite /np_diag (nth_map 0) ?size_iota // nth_iota //.
by rewrite (nth_map 0) ?size_iota // nth_iota.
Qed.

Lemma nth_np_dot (A B : mat T) (i j : nat) :
  i < size A -> j < ncols B ->
  nth fzero (nth [::] (np_dot A B) i) j =
  vdot (nth [::] A i) [seq nth fzero r j | r <- B].
Proof.
move=> iA jB; rewrite /np_dot (nth_map [::]) //.
by rewrite (nth_map [::]) ?nth_np_T // /np_T size_map size_iota.
Qed.

Lemma nth_np_dot_mv (A : mat T) (v : vec T) (i : nat) :
  i < size A -> nth fzero (np_dot_mv A v) i = vdot (nth [::] A i) v.
Proof. by move=> iA; rewrite /np_dot_mv (nth_map [::]). Qed.

Lemma nth_mscale (c : T) (A : mat T) (i j : nat) :
  i < size A -> j < size (nth [::] A i) ->
  nth fzero (nth [::] (mscale c A) i) j = fmul c (nth fzero (nth [::] A i) j).
Proof.
by move=> iA jA; rewrite /mscale (nth_map [::]) // /vscale (nth_map fzero).
Qed.

Lemma nth_madd (A B : mat T) (i j : nat) :
  size A = size B -> i < size A ->
  size (nth [::] A i) = size (nth [::] B i) -> j < size (nth [::] A i) ->
  nth fzero (nth [::] (madd A B) i) j =
  fadd (nth fzero (nth [::] A i) j) (nth fzero (nth [::] B i) j).
Proof.
move=> E iA Er jr.
by rewrite /madd (nth_map2 _ [::] [::] [::] E iA) (nth_map2 _ fzero fzero fzero Er jr).
Qed.

End Entries.

(** * The claims *)

(** ** The pruning pass and the sizes of the arrays *)

(** C4, as amended.  In every iteration of [fit] that completes, [_prune]
    runs on an instance [s1] whose arrays [alpha_], [alpha_old], [gamma],
    [m_], the rows of [phi] and both dimensions of [sigma_] have the common
    length [k]; it builds one mask [keep] of that length (the comparison
    with [threshold_alpha], adjusted by forced retention) and leaves
    [select keep s1]: the same mask applied to those six arrays, by rows
    and columns for [sigma_].  At the iteration boundary all of them have
    the length [count id keep], and [labels] is what it was: the labels
    are not pruned. *)
Theorem prune_applies_one_mask (T : Type) (ST : Scalar T)
    (linalg_inv : mat T -> res (mat T)) (n_samples : nat) (t : vec T)
    (i k : nat) (self self' : rvm T) (b : bool) :
  inv_shape linalg_inv -> loop_inv k self ->
  BaseRVM.iteration (RVR._posterior linalg_inv) n_samples t i self = (Val b, self') ->
  exists s1 keep a,
    [/\ wf k s1 /\ size keep = k,
        keep = forced_mask (below_threshold s1) (bias_used s1),
        BaseRVM._prune s1 = (Val tt, select keep s1),
        alpha_ s1 = Some a /\
        self' = (if b then select keep s1
                 else set_alpha_old (mask keep a) (select keep s1)) &
        wf (count id keep) self' /\ labels self' = labels self].
Proof.
move=> Hinv Hl H.
have [s1 /= [Hwf Hrel Hp Hc [El Eb Er Ep]]] := iteration_inv Hinv Hl H.
set keep := forced_mask _ _ in Hp Hc.
have k0 : 0 < k by case/andP: Hl.
have Ha : has_size k (alpha_ s1) by case/andP: Hwf.
have Ek : size keep = k by rewrite size_forced_mask (size_below_threshold Ha).
have Hwf' := wf_select Hwf Ek.
have [a' [ao [delta [Ea' Eao _ _ Es']]]] := converged_inv Hc.
case Ea: (alpha_ s1) Ha => [a|] // _.
have Eam : a' = mask keep a.
  by move: Ea'; rewrite /select /= Ea /= => -[].
exists s1, keep, a; split=> //; first by rewrite Es' Eam.
rewrite Es'; case: (b); first by rewrite -El.
by have [Hw _ _ -> _] := set_alpha_old_frame Ea' Hwf'; rewrite -El.
Qed.

Lemma prune_applies_one_mask_witness :
  let self := loop_entry Examples.X [:: F64.lit 1] Examples.X_labels
                         Examples.default_model in
  let r := BaseRVM.iteration (RVR._posterior F64.inv) 1 [:: F64.lit 1] 0 self in
  [/\ inv_shape F64.inv, loop_inv 2 self, r.1 = Val false &
      exists s1 keep a,
        [/\ wf 2 s1 /\ size keep = 2,
            keep = forced_mask (below_threshold s1) (bias_used s1),
            BaseRVM._prune s1 = (Val tt, select keep s1),
            alpha_ s1 = Some a /\
            r.2 = set_alpha_old (mask keep a) (select keep s1) &
            wf (count id keep) r.2 /\ labels r.2 = labels self]].
Proof.
move=> self r; split; [exact: F64_inv_shape | by vm_compute | by vm_compute |].
apply: (@prune_applies_one_mask _ _ F64.inv 1 [:: F64.lit 1] 0 2 self r.2 false).
- exact: F64_inv_shape.
- by vm_compute.
- by vm_compute.
Defined.

(** C4 as stated fails on [labels] and [relevance_]: after the default
    model is fitted to one sample with a zero feature and a bias column,
    one basis function is left, [labels] still has two entries and
    [relevance_] has no row. *)
Lemma prune_leaves_labels_unpruned :
  let r := F64.fit Examples.X [:: F64.lit 1] Examples.X_labels
                   Examples.default_model in
  [/\ r.1 = Val tt,
      omap size (alpha_ r.2) = Some 1 /\ omap size (m_ r.2) = Some 1,
      omap size (gamma r.2) = Some 1 /\ omap size (sigma_ r.2) = Some 1,
      omap size (labels r.2) = Some 2 &
      omap size (relevance_ r.2) = Some 0].
Proof. by vm_compute. Qed.

(** ** Forced retention *)

(** C5, as amended.  After a [fit] that returns, [alpha_] has at least one
    entry (and after at least one iteration all per-basis-function arrays
    have that same length).  Every pruning pass that runs on well-sized
    arrays keeps at least one entry; when no entry of [alpha_] is below
    [threshold_alpha], the mask keeps the first entry, and the last one
    too when a bias is in use (the flag then stays set), so exactly two
    entries are kept when a bias is in use and there were at least two,
    and exactly one otherwise.  Nothing beyond one entry is promised when
    some entry passes the test. *)
Theorem fit_keeps_a_basis_function (T : Type) (ST : Scalar T)
    (linalg_inv : mat T -> res (mat T)) (X : mat T) (t : vec T)
    (X_labels : seq string) (self self' : rvm T) (u : unit) :
  inv_shape linalg_inv ->
  RVR.fit linalg_inv X t X_labels self = (Val u, self') ->
  (exists k', [/\ 0 < k' <= ncols X, has_size k' (alpha_ self') &
                  0 < n_iter self -> wf k' self']) /\
  (forall s1 k, wf k s1 -> 0 < k -> relevance_rows k s1 ->
     exists keep,
       [/\ BaseRVM._prune s1 = (Val tt, select keep s1),
           0 < count id keep,
           has_size (count id keep) (alpha_ (select keep s1)) &
           ~~ has id (below_threshold s1) ->
           [/\ nth false keep 0,
               bias_used s1 -> last false keep /\ bias_used (select keep s1) &
               count id keep = if bias_used s1 && (1 < k) then 2 else 1]]).
Proof.
move=> Hinv H; split.
- have [k' [Hk' Hl' _ _ Hw']] := fit_post Hinv H.
  exists k'; split=> //; first by case/and3P: Hl'.
  by move=> /Hw' /andP [].
- move=> s1 k Hwf k0 Hrel.
  set keep := forced_mask (below_threshold s1) (bias_used s1).
  have Ha : has_size k (alpha_ s1) by case/andP: Hwf.
  have Eraw := size_below_threshold Ha.
  have Ek : size keep = k by rewrite size_forced_mask Eraw.
  exists keep; split.
  + exact: (prune_run Hwf k0 Hrel).
  + by rewrite count_forced_mask ?Eraw.
  + by case/andP: (wf_select Hwf Ek).
  + move=> Hn.
    have r0 : 0 < size (below_threshold s1) by rewrite Eraw.
    have [H0 Hlast Hc] := forced_mask_none (bias_used s1) r0 Hn.
    rewrite Eraw in Hc; split=> //.
    move=> Hbu; have Hl := Hlast Hbu; split=> //.
    rewrite /select /= Hbu /= -/keep.
    by move: Hl; rewrite -/keep; case: (keep) => [|x l].
Qed.

Lemma fit_keeps_a_basis_function_witness :
  let r := F64.fit Examples.X [:: F64.lit 1] Examples.X_labels
                   Examples.default_model in
  [/\ inv_shape F64.inv, r.1 = Val tt &
      exists k', [/\ 0 < k' <= ncols Examples.X, has_size k' (alpha_ r.2) &
                     0 < n_iter Examples.default_model -> wf k' r.2]].
Proof.
move=> r; split; [exact: F64_inv_shape | by vm_compute |].
have [] := @fit_keeps_a_basis_function _ _ F64.inv Examples.X [:: F64.lit 1]
             Examples.X_labels Examples.default_model r.2 tt.
- exact: F64_inv_shape.
- by vm_compute.
- by [].
Defined.

(** C5 as stated fails on its last part: after the default model is fitted
    to one sample with a zero feature and a bias column, the bias is in use
    and has survived (its weight is 0.5), and it is the only basis function
    left; [relevance_] has no row at all.  No retention was forced: the
    bias column alone passed the test. *)
Lemma bias_survives_alone :
  let r := F64.fit Examples.X [:: F64.lit 1] Examples.X_labels
                   Examples.default_model in
  [/\ r.1 = Val tt, bias_used r.2 = true,
      bias r.2 = Some (Some (F64.lit 0.5)),
      omap size (alpha_ r.2) = Some 1 &
      omap size (relevance_ r.2) = Some 0].
Proof. by vm_compute. Qed.

(** ** The bias flag *)

(** C10.  Whatever [_prune] returns or raises, it leaves every
    configuration attribute other than [bias_used] as it was, and
    [bias_used] is afterwards what it was and-ed with the mask entry of the
    last column: it is cleared when the bias column fails the mask.  No
    later step sets it again: the rest of the iteration, the rest of the
    loop, and any later call of [fit] on the instance (on any data) change
    no configuration attribute and can only clear the flag ([cfg_le]), so
    a model whose flag was cleared is fitted without a bias from then on. *)
Theorem prune_clears_bias_used (T : Type) (ST : Scalar T)
    (self self' : rvm T) (r : res unit) (keep : seq bool) :
  BaseRVM.keep_mask self = (Val keep, self) ->
  BaseRVM._prune self = (r, self') ->
  [/\ bias_used self' = bias_used self && last true keep,
      [/\ n_iter self' = n_iter self, tol self' = tol self,
          alpha self' = alpha self, threshold_alpha self' = threshold_alpha self &
          beta self' = beta self] /\
      [/\ beta_fixed self' = beta_fixed self, verbose self' = verbose self &
          verb_freq self' = verb_freq self],
      forall i r2 s2,
        (BaseRVM.report i ;; BaseRVM.converged i) self' = (r2, s2) -> cfg_eq self' s2,
      forall linalg_inv n_samples t i n r2 s2,
        BaseRVM.for_range (BaseRVM.iteration (RVR._posterior linalg_inv) n_samples t)
          i n self' = (r2, s2) -> cfg_le self' s2 &
      forall linalg_inv X t X_labels r2 s2,
        RVR.fit linalg_inv X t X_labels self' = (r2, s2) ->
        cfg_le self' s2 /\ (bias_used self' = false -> bias_used s2 = false)].
Proof.
move=> Hk Hp; split.
- exact: prune_flag Hk Hp.
- by have [H1 [H2 H3 H4 _]] := prune_cfg Hp.
- move=> i.
  have Hb : keeps cfg_eq (BaseRVM.report i ;; @BaseRVM.converged T ST i).
    apply: keeps_bind; [exact: cfg_eq_trans | exact: report_cfg |].
    by move=> _; exact: converged_cfg.
  exact: Hb.
- move=> linalg_inv n_samples t i n.
  have Hb : keeps cfg_le
      (BaseRVM.for_range (BaseRVM.iteration (RVR._posterior linalg_inv) n_samples t) i n).
    by apply: for_range_cfg => j; exact: iteration_cfg.
  exact: Hb.
- move=> linalg_inv X t X_labels r2 s2 /fit_cfg Hle; split=> //.
  by case: Hle => _ [_ _ _]; case: (bias_used s2) => // ->.
Qed.

Lemma prune_clears_bias_used_witness :
  let self := Examples.before_prune Examples.X_no_bias [:: F64.lit 1]
                Examples.X_labels Examples.default_model in
  let r := BaseRVM._prune self in
  [/\ BaseRVM.keep_mask self = (Val [:: true; false], self),
      bias_used self = true, bias_used r.2 = false &
      forall linalg_inv X t X_labels r2 s2,
        RVR.fit linalg_inv X t X_labels r.2 = (r2, s2) ->
        cfg_le r.2 s2 /\ (bias_used r.2 = false -> bias_used s2 = false)].
Proof.
move=> self r.
have Hk : BaseRVM.keep_mask self = (Val [:: true; false], self) by vm_compute.
have Hp : BaseRVM._prune self = (r.1, r.2) by vm_compute.
have [H1 _ _ _ H5] := prune_clears_bias_used Hk Hp.
by split=> //; rewrite H1.
Defined.

(** ** The loop and its two exits *)

(** C3.  Let iteration [i] of the loop complete on [self], with [s1] the
    instance that the pruning pass leaves.  Then [delta] is the largest
    [|alpha_ - alpha_old|] over the entries of [s1], that is, over the
    basis functions retained so far; the iteration breaks out of the loop
    exactly when [delta < tol] and [1 < i]; when it breaks the instance is
    left as it is, otherwise [alpha_old] becomes [alpha_] and the loop goes
    on with [i + 1].  When the budget is used up the loop ends normally
    with the instance as it is. *)
Theorem loop_exits (T : Type) (ST : Scalar T) (_posterior : M T unit)
    (n_samples : nat) (t : vec T) (i : nat) (self self' : rvm T) (b : bool) :
  let body := BaseRVM.iteration _posterior n_samples t in
  body i self = (Val b, self') ->
  exists s0 s1 a ao delta,
    [/\ BaseRVM._prune s0 = (Val tt, s1),
        alpha_ s1 = Some a /\ alpha_old s1 = Some ao,
        np_amax [seq fabs d | d <- map2 fsub a ao] = Val delta,
        b = flt delta (tol s1) && (1 < i) /\
        self' = (if b then s1 else set_alpha_old a s1) &
        (forall n, BaseRVM.for_range body i n.+1 self =
                   if b then (Val tt, self')
                   else BaseRVM.for_range body i.+1 n self') /\
        (forall j, BaseRVM.for_range body j 0 self' = (Val tt, self'))].
Proof.
move=> body Hb.
have Hloop : forall n, BaseRVM.for_range body i n.+1 self =
    if b then (Val tt, self') else BaseRVM.for_range body i.+1 n self'.
  by move=> n; rewrite /= /bind Hb; case: (b).
move: Hb; rewrite /body /BaseRVM.iteration => H.
mcall H sp Ep; mcall H sa Ea; mcall H sb Eb; mcall H s1 Epr; mcall H s2 Er.
have ? := report_inv Er; subst s2.
have [a [ao [delta [Ha Hao Hd Hbd Hs']]]] := converged_inv H.
exists sb, s1, a, ao, delta; split=> //.
by move: Epr; case: (u2).
Qed.

Lemma loop_exits_witness :
  let s2 := Examples.after_iterations 2 Examples.X [:: F64.lit 1]
              Examples.X_labels Examples.default_model in
  let body := BaseRVM.iteration (RVR._posterior F64.inv) 1 [:: F64.lit 1] in
  let r := body 2 s2 in
  r.1 = Val true /\
  exists s0 s1 a ao delta,
    [/\ BaseRVM._prune s0 = (Val tt, s1),
        alpha_ s1 = Some a /\ alpha_old s1 = Some ao,
        np_amax [seq fabs d | d <- map2 fsub a ao] = Val delta,
        true = flt delta (tol s1) && (1 < 2) /\ r.2 = s1 &
        (forall n, BaseRVM.for_range body 2 n.+1 s2 = (Val tt, r.2)) /\
        (forall j, BaseRVM.for_range body j 0 r.2 = (Val tt, r.2))].
Proof.
move=> s2 body r; split; first by vm_compute.
apply: (@loop_exits _ _ (RVR._posterior F64.inv) 1 [:: F64.lit 1] 2 s2 r.2 true).
by vm_compute.
Defined.

(** ** The hyperparameter update *)

(** C2.  In an iteration of [fit], let [_posterior] have just assigned
    [sigma_ = sg] and [m_ = m] on an instance whose [alpha_] is [a] (it
    leaves [alpha_] alone).  Then lines 151-152 assign, for every basis
    function [j], [gamma_j = 1 - a_j * sg_jj] and then
    [alpha__j = gamma_j / (m_j * m_j)]. *)
Theorem update_alpha_entries (T : Type) (ST : Scalar T)
    (linalg_inv : mat T -> res (mat T)) (k : nat)
    (self s1 self' : rvm T) (u u' : unit) :
  inv_shape linalg_inv -> loop_inv k self ->
  RVR._posterior linalg_inv self = (Val u, s1) ->
  BaseRVM.update_alpha s1 = (Val u', self') ->
  exists a sg m g a',
    [/\ alpha_ self = Some a /\ s1 = set_m_ m (set_sigma_ sg self),
        gamma self' = Some g /\ alpha_ self' = Some a',
        sigma_ self' = Some sg /\ m_ self' = Some m,
        [/\ size a = k, size sg = k, size m = k, size g = k & size a' = k] &
        forall j, j < k ->
          nth fzero g j =
            fsub fone (fmul (nth fzero a j) (nth fzero (nth [::] sg j) j)) /\
          nth fzero a' j =
            fdiv (nth fzero g j) (fmul (nth fzero m j) (nth fzero m j))].
Proof.
move=> Hinv /and4P [k0 Ha _ HP] Hp Hu.
have [a [be [P [y0 [sg [[Ea Eb EP Ey] Einv Es1]]]]]] := posterior_inv Hp.
have [a1 [sg1 [m1 [Ea1 Esg1 Em1 Es']]]] := update_alpha_inv Hu.
move: Ea1 Esg1 Em1 Es'; rewrite Es1.
have -> : alpha_ (set_m_ (posterior_mean be sg P y0) (set_sigma_ sg self)) = alpha_ self.
  by case: (self).
have -> : sigma_ (set_m_ (posterior_mean be sg P y0) (set_sigma_ sg self)) = Some sg.
  by case: (self).
have -> : m_ (set_m_ (posterior_mean be sg P y0) (set_sigma_ sg self)) =
          Some (posterior_mean be sg P y0).
  by case: (self).
rewrite Ea => -[<-] [<-] [<-] ->.
set m := posterior_mean be sg P y0.
move: Ha HP; rewrite Ea EP /= => /eqP Eka /andP [P0 HP].
have [Ep _] := shape_precision be Eka k0 P0 HP.
have [Esg _] := Hinv _ _ Einv; rewrite Ep in Esg.
have Em : size m = k by rewrite size_posterior_mean.
have Eg : size (new_gamma a sg) = k by rewrite size_new_gamma Eka Esg minnn.
have En : size (new_alpha (new_gamma a sg) m) = k by rewrite size_new_alpha Eg Em minnn.
exists a, sg, m, (new_gamma a sg), (new_alpha (new_gamma a sg) m); split=> //.
- by case: (self).
- by case: (self).
- move=> j jk; split.
  + have E1 : size a = size (np_diagonal sg) by rewrite size_np_diagonal Eka Esg.
    have j1 : j < size a by rewrite Eka.
    by rewrite /new_gamma (nth_map2 _ fzero fzero fzero E1 j1) nth_np_diagonal ?Esg.
  + have E1 : size (new_gamma a sg) = size [seq fmul mi mi | mi <- m].
      by rewrite size_map Eg Em.
    have j1 : j < size (new_gamma a sg) by rewrite Eg.
    by rewrite /new_alpha (nth_map2 _ fzero fzero fzero E1 j1) (nth_map fzero) ?Em.
Qed.

Lemma update_alpha_entries_witness :
  let self := loop_entry Examples.X [:: F64.lit 1] Examples.X_labels
                Examples.default_model in
  let s1 := (RVR._posterior F64.inv self).2 in
  let self' := (BaseRVM.update_alpha s1).2 in
  [/\ loop_inv 2 self,
      gamma self' = Some [:: F64.lit 0; F64.lit 0.5],
      alpha_ self' = Some [:: S754_nan; F64.lit 2] &
      exists a sg m g a',
        [/\ alpha_ self = Some a /\ s1 = set_m_ m (set_sigma_ sg self),
            gamma self' = Some g /\ alpha_ self' = Some a',
            sigma_ self' = Some sg /\ m_ self' = Some m,
            [/\ size a = 2, size sg = 2, size m = 2, size g = 2 & size a' = 2] &
            forall j, j < 2 ->
              nth fzero g j =
                fsub fone (fmul (nth fzero a j) (nth fzero (nth [::] sg j) j)) /\
              nth fzero a' j =
                fdiv (nth fzero g j) (fmul (nth fzero m j) (nth fzero m j))]].
Proof.
move=> self s1 self'; split; try by vm_compute.
apply: (@update_alpha_entries _ _ F64.inv 2 self s1 self' tt tt).
- exact: F64_inv_shape.
- by vm_compute.
- by vm_compute.
- by vm_compute.
Defined.

(** ** The noise precision *)

Lemma div_by_zero (x z : F64.t) :
  F64.iszero z -> F64.isnan (fdiv x z) || F64.isinf (fdiv x z).
Proof. by case: z => // sz _; case: x. Qed.

(** C6, as amended.  When [beta_fixed] is set, lines 154-156 leave the
    instance alone.  Otherwise they assign
    [(n_samples - sum(gamma)) / sum((y - phi.m_)**2)] to [beta_] with no
    guard: the float64 division is carried out whatever the operands are,
    and when the sum of squared residuals is zero the value assigned is an
    infinity or NaN. *)
Theorem beta_update_is_unguarded (n_samples : nat) (t : vec F64.t)
    (self self' : rvm F64.t) (u : unit) :
  BaseRVM.update_beta n_samples t self = (Val u, self') ->
  if beta_fixed self then self' = self
  else
    exists g P m,
      let num := fsub (fofnat n_samples) (np_sum g) in
      let rss := np_sum [seq fmul ri ri | ri <- map2 fsub t (np_dot_mv P m)] in
      [/\ gamma self = Some g, phi self = Some P, m_ self = Some m,
          self' = set_beta_ (fdiv num rss) self &
          F64.iszero rss ->
          F64.isnan (fdiv num rss) || F64.isinf (fdiv num rss)].
Proof.
move=> /update_beta_inv; case: (beta_fixed self) => // -[g [P [m [Eg EP Em Es]]]].
exists g, P, m; split=> //.
exact: div_by_zero.
Qed.

Lemma beta_update_is_unguarded_witness :
  let self := Examples.before_update_beta Examples.X [:: F64.lit 0]
                Examples.X_labels Examples.default_model in
  let r := BaseRVM.update_beta 1 [:: F64.lit 0] self in
  r.1 = Val tt /\
  exists g P m,
    let num := fsub (fofnat 1) (np_sum g) in
    let rss := np_sum [seq fmul ri ri | ri <- map2 fsub [:: F64.lit 0] (np_dot_mv P m)] in
    [/\ gamma self = Some g, phi self = Some P, m_ self = Some m,
        r.2 = set_beta_ (fdiv num rss) self &
        F64.iszero rss ->
        F64.isnan (fdiv num rss) || F64.isinf (fdiv num rss)].
Proof.
move=> self r; split; first by vm_compute.
have H : BaseRVM.update_beta 1 [:: F64.lit 0] self = (Val tt, r.2) by vm_compute.
have Hbf : beta_fixed self = false by vm_compute.
by move: (beta_update_is_unguarded H); rewrite Hbf.
Defined.

(** C6 as stated fails: with the default model, one sample with a zero
    feature and a bias column, and the target 0, the first iteration has a
    zero sum of squared residuals and a positive numerator 0.5; [beta_] is
    not kept at 1e-6, the division is carried out and [beta_] becomes
    [+infinity], which is also what a one-iteration [fit] leaves. *)
Lemma zero_residual_changes_beta :
  let self := Examples.before_update_beta Examples.X [:: F64.lit 0]
                Examples.X_labels Examples.default_model in
  let r := BaseRVM.update_beta 1 [:: F64.lit 0] self in
  let fitted := F64.fit Examples.X [:: F64.lit 0] Examples.X_labels
                        Examples.one_pass_model in
  [/\ beta_fixed self = false /\ beta_ self = Some (F64.lit 1e-6),
      omap (fun P => np_sum [seq fmul ri ri
                            | ri <- map2 fsub [:: F64.lit 0]
                                      (np_dot_mv P (odflt [::] (m_ self)))])
           (phi self) = Some F64.zero,
      omap (fun g => fsub (fofnat 1) (np_sum g)) (gamma self) = Some (F64.lit 0.5),
      r.1 = Val tt /\ beta_ r.2 = Some (S754_infinity false) &
      fitted.1 = Val tt /\ beta_ fitted.2 = Some (S754_infinity false)].
Proof. by vm_compute. Qed.

(** ** A zero posterior mean *)

Lemma div_zero_square (g m thr : F64.t) :
  F64.iszero m -> SFltb g F64.zero = false ->
  let a := fdiv g (fmul m m) in
  (F64.isnan a || (SFeqb a (S754_infinity false))) /\ flt a thr = false.
Proof.
case: m => // sm _; case: g => [sg| [] | |[] mg eg] //= _;
  by case: sm => /=; split=> //; case: thr => // -[].
Qed.

(** C8, as amended.  Let [update_alpha] run on arrays of length [k] and let
    [m_j] be a zero.  When [gamma_j = 1 - alpha__j * sigma__jj] is not
    negative, the new [alpha__j = gamma_j / (m_j * m_j)] is [+infinity] or
    NaN, so the test [alpha__j < threshold_alpha] is false whatever the
    threshold is, also after the update of [beta_]; the pruning pass of
    the same iteration therefore drops basis function [j] as soon as some
    entry passes the test.  When no entry passes, forced retention decides
    (see [fit_keeps_a_basis_function]) and the entries it keeps stay as
    they are, infinite or NaN. *)
Theorem zero_mean_fails_threshold (k j : nat) (self self' : rvm F64.t) (u : unit)
    (a : vec F64.t) (sg : mat F64.t) (m : vec F64.t) :
  [/\ alpha_ self = Some a, sigma_ self = Some sg & m_ self = Some m] ->
  [/\ size a = k, size sg = k & size m = k] -> j < k ->
  BaseRVM.update_alpha self = (Val u, self') ->
  F64.iszero (nth fzero m j) ->
  flt (fsub fone (fmul (nth fzero a j) (nth fzero (nth [::] sg j) j))) fzero = false ->
  exists a',
    [/\ alpha_ self' = Some a' /\ size a' = k,
        F64.isnan (nth fzero a' j) || SFeqb (nth fzero a' j) (S754_infinity false),
        nth true (below_threshold self') j = false,
        forall n_samples t u2 s2,
          BaseRVM.update_beta n_samples t self' = (Val u2, s2) ->
          below_threshold s2 = below_threshold self' &
        forall bu, has id (below_threshold self') ->
          nth true (forced_mask (below_threshold self') bu) j = false].
Proof.
move=> [Ea Esg Em] [Eka Eks Ekm] jk Hu Hz Hg.
have [a1 [sg1 [m1 [Ea1 Esg1 Em1 Es']]]] := update_alpha_inv Hu.
move: Ea1 Esg1 Em1; rewrite Ea Esg Em => -[?] [?] [?]; subst a1 sg1 m1.
set g := new_gamma a sg in Es'; set a' := new_alpha g m in Es'.
have Eg : size g = k by rewrite size_new_gamma Eka Eks minnn.
have Ea' : size a' = k by rewrite size_new_alpha Eg Ekm minnn.
have Hgj : nth fzero g j =
    fsub fone (fmul (nth fzero a j) (nth fzero (nth [::] sg j) j)).
  have E1 : size a = size (np_diagonal sg) by rewrite size_np_diagonal Eka Eks.
  have j1 : j < size a by rewrite Eka.
  by rewrite /g /new_gamma (nth_map2 _ fzero fzero fzero E1 j1) nth_np_diagonal ?Eks.
have Haj : nth fzero a' j =
    fdiv (nth fzero g j) (fmul (nth fzero m j) (nth fzero m j)).
  have E1 : size g = size [seq fmul mi mi | mi <- m] by rewrite size_map Eg Ekm.
  have j1 : j < size g by rewrite Eg.
  by rewrite /a' /new_alpha (nth_map2 _ fzero fzero fzero E1 j1) (nth_map fzero) ?Ekm.
rewrite -Hgj in Hg.
have Hself' : alpha_ self' = Some a' by rewrite Es'; case: (self).
have Hbt : nth true (below_threshold self') j = false.
  rewrite /below_threshold Hself' (nth_map fzero) ?Ea' // Haj.
  by have [_ ->] := div_zero_square (threshold_alpha self') Hz Hg.
exists a'; split=> //.
- by rewrite Haj; have [-> _] := div_zero_square fzero Hz Hg.
- move=> n_samples t u2 s2 /update_beta_inv.
  case: (beta_fixed self') => [->|[g0 [P0 [m0 [_ _ _ ->]]]]] //.
  by case: (self').
- by move=> bu Hh; rewrite forced_mask_some.
Qed.

Lemma zero_mean_fails_threshold_witness :
  let self := (RVR._posterior F64.inv
                 (loop_entry Examples.X [:: F64.lit 1] Examples.X_labels
                             Examples.default_model)).2 in
  let self' := (BaseRVM.update_alpha self).2 in
  [/\ omap (fun m => F64.iszero (nth fzero m 0)) (m_ self) = Some true,
      omap (fun a => nth fzero a 0) (alpha_ self') = Some S754_nan,
      below_threshold self' = [:: false; true] &
      exists a',
        [/\ alpha_ self' = Some a' /\ size a' = 2,
            F64.isnan (nth fzero a' 0) || SFeqb (nth fzero a' 0) (S754_infinity false),
            nth true (below_threshold self') 0 = false,
            forall n_samples t u2 s2,
              BaseRVM.update_beta n_samples t self' = (Val u2, s2) ->
              below_threshold s2 = below_threshold self' &
            forall bu, has id (below_threshold self') ->
              nth true (forced_mask (below_threshold self') bu) 0 = false]].
Proof.
move=> self self'; split; try by vm_compute.
apply: (@zero_mean_fails_threshold 2 0 self self' tt
          (odflt [::] (alpha_ self)) (odflt [::] (sigma_ self)) (odflt [::] (m_ self)));
  by vm_compute.
Defined.

(** C8 as stated fails: with the default model limited to one iteration,
    one sample with a zero feature and a bias column, and the target 0,
    both posterior means are zero; the new [alpha_] is [NaN; +infinity], no
    entry passes the test, forced retention keeps both basis functions, and
    the NaN stays in the instance that [fit] returns. *)
Lemma zero_mean_is_retained :
  let r := F64.fit Examples.X [:: F64.lit 0] Examples.X_labels
                   Examples.one_pass_model in
  [/\ r.1 = Val tt,
      m_ r.2 = Some [:: F64.zero; F64.zero],
      alpha_ r.2 = Some [:: S754_nan; S754_infinity false],
      omap (fun P => [seq size row | row <- P]) (phi r.2) = Some [:: 2] &
      below_threshold r.2 = [:: false; false]].
Proof. by vm_compute. Qed.

(** ** The predictive variance *)

(** C7 fails on the code.  [RVR(alpha=1.0, beta=1.0, bias_used=False)] is
    fitted to the single sample [x = 1, y = 1]: [m_ = [0.5]],
    [sigma_ = [[0.25]]], [beta_ = 2].  For the two inputs [1] and [-1],
    [predict] with [eval_MSE] returns the means [0.5; -0.5] and the array
    [0.75; 0.25]: column 0 of [1/beta_ + phi.sigma_.phi^T], whose diagonal
    is [0.75; 0.75].  The value for the second input is below
    [1/beta_ = 0.5]. *)
Lemma predict_returns_first_column :
  let fitted := F64.fit Examples.X1 [:: F64.lit 1] [:: "x"%string]
                        Examples.plain_model in
  let X' := [:: [:: F64.lit 1]; [:: F64.lit (-1)]] in
  let MSE := [seq [seq fadd (fdiv fone (F64.lit 2)) x | x <- row]
             | row <- np_dot X' (np_dot [:: [:: F64.lit 0.25]] (np_T X'))] in
  [/\ fitted.1 = Val tt,
      [/\ m_ fitted.2 = Some [:: F64.lit 0.5],
          sigma_ fitted.2 = Some [:: [:: F64.lit 0.25]] &
          beta_ fitted.2 = Some (F64.lit 2)],
      F64.predict X' true fitted.2 =
        (Val ([:: F64.lit 0.5; F64.lit (-0.5)],
              Some [:: F64.lit 0.75; F64.lit 0.25]), fitted.2),
      np_diagonal MSE = [:: F64.lit 0.75; F64.lit 0.75] &
      fdiv fone (F64.lit 2) = F64.lit 0.5 /\
      flt (F64.lit 0.25) (F64.lit 0.5) = true].
Proof. by vm_compute. Qed.

(** ** The posterior in exact arithmetic *)

Section ExactPosterior.

Variable F : realFieldType.

Import GRing.Theory Num.Theory Order.Theory.
Local Open Scope ring_scope.

Local Notation mx_of := (@Exact.mx_of F).
Local Notation cv_of := (@Exact.cv_of F).
Local Notation rv_of := (@Exact.rv_of F).
Local Notation seq_of_mx := (@Exact.seq_of_mx F).

Lemma vdot_sum (n : nat) (u v : vec F) :
  size u = n -> size v = n ->
  vdot u v = \sum_(r < n) nth 0 u r * nth 0 v r.
Proof.
move=> Eu Ev; rewrite /vdot /np_sum /map2 /= foldl_idx big_map.
rewrite (big_nth (0, 0)) size_zip Eu Ev minnn big_mkord.
by apply: eq_bigr => r _; rewrite nth_zip ?Eu ?Ev.
Qed.

Lemma quad_form (n k : nat) (d : 'rV[F]_k) (b : F) (P : 'M[F]_(n, k)) (v : 'rV[F]_k) :
  (v *m (diag_mx d + b *: (P^T *m P)) *m v^T) 0 0 =
  \sum_j d 0 j * v 0 j ^+ 2 + b * \sum_r (P *m v^T) r 0 ^+ 2.
Proof.
rewrite mulmxDr mulmxDl mxE; congr (_ + _).
- rewrite mul_mx_diag mxE; apply: eq_bigr => j _.
  by rewrite !mxE expr2 mulrA [v 0 j * d 0 j]mulrC.
- rewrite -scalemxAr -scalemxAl mxE; congr (_ * _).
  rewrite mulmxA -mulmxA -[v *m P^T]trmxK trmx_mul trmxK mxE.
  by apply: eq_bigr => r _; rewrite !mxE expr2.
Qed.

(** A positive diagonal plus a non-negative multiple of a Gram matrix is
    invertible. *)
Lemma precision_unit (n k : nat) (d : 'rV[F]_k) (b : F) (P : 'M[F]_(n, k)) :
  (forall j, 0 < d 0 j) -> 0 <= b ->
  diag_mx d + b *: (P^T *m P) \in unitmx.
Proof.
move=> d0 b0; rewrite -row_free_unit -kermx_eq0.
set A := diag_mx d + _.
apply/eqP/row_matrixP => i; rewrite row0.
set v := row i (kermx A).
have HvA : v *m A = 0 by rewrite /v -row_mul mulmx_ker row0.
have H1 : 0 <= \sum_j d 0 j * v 0 j ^+ 2.
  by rewrite sumr_ge0 // => j _; rewrite mulr_ge0 ?sqr_ge0 // ltW.
have H2 : 0 <= b * \sum_r (P *m v^T) r 0 ^+ 2.
  by rewrite mulr_ge0 // sumr_ge0 // => r _; rewrite sqr_ge0.
have := quad_form d b P v; rewrite -/A HvA mul0mx mxE => /esym/eqP.
rewrite (paddr_eq0 H1 H2) => /andP [/eqP Hs _].
apply/rowP => j; rewrite [RHS]mxE.
have Hnn : forall j0 : 'I_k, true -> 0 <= d 0 j0 * v 0 j0 ^+ 2.
  by move=> j0 _; rewrite mulr_ge0 ?sqr_ge0 // ltW.
have := psumr_eq0P Hnn Hs (i := j) isT.
by move=> /eqP; rewrite mulf_eq0 sqrf_eq0 gt_eqF //= => /eqP.
Qed.

Lemma precision_sym (n k : nat) (d : 'rV[F]_k) (b : F) (P : 'M[F]_(n, k)) :
  (diag_mx d + b *: (P^T *m P))^T = diag_mx d + b *: (P^T *m P).
Proof. by rewrite linearD /= tr_diag_mx linearZ /= trmx_mul trmxK. Qed.

Lemma mx_of_seq_of_mx (n k : nat) (A : 'M[F]_(n, k)) : mx_of n k (seq_of_mx A) = A.
Proof.
apply/matrixP => i j; rewrite mxE /Exact.seq_of_mx.
rewrite (nth_map i) ?size_enum_ord // (nth_map j) ?size_enum_ord //.
by rewrite !nth_ord_enum.
Qed.

Lemma shape_seq_of_mx (n k : nat) (A : 'M[F]_(n, k)) :
  size (seq_of_mx A) = n /\ all (fun r => size r == k) (seq_of_mx A).
Proof.
rewrite /Exact.seq_of_mx size_map size_enum_ord; split=> //.
by rewrite all_map; apply/allP => i _ /=; rewrite size_map size_enum_ord.
Qed.

Lemma mx_of_precision (n k : nat) (a : vec F) (b : F) (P : mat F) :
  size a = k -> size P = n -> (0 < n)%nat -> all (fun r => size r == k) P ->
  mx_of k k (precision a b P) =
  diag_mx (rv_of k a) + b *: ((mx_of n k P)^T *m mx_of n k P).
Proof.
move=> Ea EP n0 HP.
have P0 : (0 < size P)%nat by rewrite EP.
have Ek : ncols P = k := ncols_rows P0 HP.
have [ET HT] := shape_np_T P0 HP.
have [ED HD] := shape_np_dot (np_T P) P0 HP.
have [Ea1 Ha1] := shape_np_diag a.
have Hrow (A : mat F) (w i : nat) :
    all (fun r => size r == w) A -> (i < size A)%nat -> size (nth [::] A i) = w.
  by move=> /(all_nthP [::]) H /H /eqP.
apply/matrixP => i j; rewrite !mxE.
have ik : (i < k)%nat := ltn_ord i.
have jk : (j < k)%nat := ltn_ord j.
set D := np_diag a; set G := np_dot (np_T P) P.
have ED' : size G = k by rewrite /G ED ET.
have iD : (i < size D)%nat by rewrite /D Ea1 Ea.
have iG : (i < size G)%nat by rewrite ED'.
have ErD : size (nth [::] D i) = k by rewrite (Hrow D (size a) i Ha1 iD).
have ErG : size (nth [::] G i) = k by rewrite (Hrow G k i HD iG).
have E1 : size D = size (mscale b G) by rewrite /mscale size_map /D Ea1 Ea ED'.
have E2 : size (nth [::] D i) = size (nth [::] (mscale b G) i).
  by rewrite /mscale (nth_map [::]) // /vscale size_map ErD ErG.
have jD : (j < size (nth [::] D i))%nat by rewrite ErD.
have jG : (j < size (nth [::] G i))%nat by rewrite ErG.
rewrite /precision -/D -/G (@nth_madd _ (Exact.scalar F) _ _ _ _ E1 iD E2 jD).
rewrite /D (@nth_np_diag _ (Exact.scalar F)) ?Ea //.
rewrite (@nth_mscale _ (Exact.scalar F) _ _ _ _ iG jG) /G.
rewrite (@nth_np_dot _ (Exact.scalar F)) ?ET ?Ek // (@nth_np_T _ (Exact.scalar F)) ?Ek //.
rewrite (@vdot_sum n) ?size_map //.
rewrite /fadd /fmul /fzero /=; congr (_ + _).
- by rewrite -val_eqE /=; case: (_ == _); rewrite ?mulr1n ?mulr0n.
- congr (_ * _); apply: eq_bigr => r _; rewrite !mxE.
  by rewrite !(nth_map [::]) ?EP.
Qed.

Lemma cv_of_posterior_mean (n k : nat) (b : F) (sg P : mat F) (t : vec F) :
  size sg = k -> all (fun r => size r == k) sg ->
  size P = n -> (0 < n)%nat -> all (fun r => size r == k) P -> size t = n ->
  cv_of k (posterior_mean b sg P t) =
  b *: (mx_of k k sg *m ((mx_of n k P)^T *m cv_of n t)).
Proof.
move=> Es Hs EP n0 HP Et.
have P0 : (0 < size P)%nat by rewrite EP.
have Ek : ncols P = k := ncols_rows P0 HP.
have [ET HT] := shape_np_T P0 HP.
apply/matrixP => i z; rewrite !mxE.
have ik : (i < k)%nat := ltn_ord i.
rewrite /posterior_mean /vscale (nth_map 0) /np_dot_mv ?size_map ?Es //.
rewrite (nth_map [::]) ?Es // /fmul /=; congr (_ * _).
have Er : size (nth [::] sg i) = k.
  by move/(all_nthP [::]): Hs => /(_ i); rewrite Es => /(_ ik) /eqP.
have Emv : size [seq vdot r0 t | r0 <- np_T P] = k by rewrite size_map ET.
rewrite (@vdot_sum k _ _ Er Emv).
apply: eq_bigr => c _; rewrite !mxE; congr (_ * _).
have ck : (c < k)%nat := ltn_ord c.
rewrite (nth_map [::]) ?ET // (@nth_np_T _ (Exact.scalar F)) ?Ek //.
rewrite (@vdot_sum n) ?size_map //.
apply: eq_bigr => r _; rewrite !mxE.
by rewrite (nth_map [::]) ?EP.
Qed.

End ExactPosterior.



(** * Further properties *)

(** ** get_params and set_params *)

(** Setting the parameters of an instance to the values that [get_params]
    reports leaves the instance as it is. *)
Theorem set_params_get_params (T : Type) (self : rvm T) :
  set_params (get_params self) self = Some self.
Proof. by case: self. Qed.

(** Copying the parameters of [self] onto [other], as a clone does, gives
    [other] the eight reported parameters of [self]; [verb_freq], which
    [get_params] does not report, and the attributes created by [fit] stay
    those of [other]. *)
Theorem set_params_copies_all_but_verb_freq (T : Type) (self other : rvm T) :
  exists other',
    [/\ set_params (get_params self) other = Some other',
        get_params other' = get_params self,
        verb_freq other' = verb_freq other,
        [/\ phi other' = phi other, labels other' = labels other,
            relevance_ other' = relevance_ other, y other' = y other &
            alpha_ other' = alpha_ other] &
        [/\ beta_ other' = beta_ other, m_ other' = m_ other,
            alpha_old other' = alpha_old other, gamma other' = gamma other &
            sigma_ other' = sigma_ other /\ bias other' = bias other]].
Proof. by case: self; case: other => *; eexists; split. Qed.

(** The parameters that [get_params] reports after [fit], whatever [fit]
    returned or raised, are those reported before it, except that
    [bias_used] may have gone from [True] to [False]; [verb_freq] is
    unchanged too. *)
Theorem fit_changes_only_bias_used (T : Type) (ST : Scalar T)
    (linalg_inv : mat T -> res (mat T)) (X : mat T) (t : vec T)
    (X_labels : seq string) (self self' : rvm T) (r : res unit) :
  RVR.fit linalg_inv X t X_labels self = (r, self') ->
  [/\ get_params self' = get_params (set_bias_used (bias_used self') self),
      bias_used self' -> bias_used self &
      verb_freq self' = verb_freq self].
Proof.
move=> /fit_cfg [[E1 E2 E3 E4 E5] [E6 E7 E8 Hb]]; split=> //.
rewrite /get_params E1 E2 E3 E4 E5 E6 E7.
by case: (self).
Qed.

Lemma fit_changes_only_bias_used_witness :
  let self := Examples.default_model in
  let r := F64.fit Examples.X_no_bias [:: F64.lit 1] Examples.X_labels self in
  [/\ bias_used self = true, bias_used r.2 = false,
      get_params r.2 = get_params (set_bias_used false self) &
      verb_freq r.2 = verb_freq self].
Proof.
move=> self r.
have H : F64.fit Examples.X_no_bias [:: F64.lit 1] Examples.X_labels self = (r.1, r.2).
  by vm_compute.
have Hb : bias_used r.2 = false by vm_compute.
have [H1 _ H3] := fit_changes_only_bias_used H.
by split=> //; rewrite H1 Hb.
Defined.

(** ** fit: validation, the start of the loop, the end *)

Section FitExtras.

Context {T : Type} {ST : Scalar T}.

Lemma fit_unfold (linalg_inv : mat T -> res (mat T)) (X : mat T) (t : vec T)
    (X_labels : seq string) (self : rvm T) :
  check_X_y X t = Val (X, t) ->
  RVR.fit linalg_inv X t X_labels self =
  (BaseRVM.for_range (BaseRVM.iteration (RVR._posterior linalg_inv) (size X) t)
     0 (n_iter self) ;; BaseRVM.set_bias_term) (loop_entry X t X_labels self).
Proof.
move=> Ec; rewrite /RVR.fit /BaseRVM.fit {1}/bind /lift Ec /=.
by case: self.
Qed.

Lemma check_X_y_raises (X : mat T) (t : vec T) (e : exn) :
  check_X_y X t = Exc e -> e = ValueError.
Proof.
rewrite /check_X_y.
by do 5![case: ifP => _; first by case].
Qed.

End FitExtras.

(** When the validation of [X] and [y] fails, [fit] raises [ValueError]
    before it assigns anything: the instance, with the state of an earlier
    fit if there was one, is left as it was. *)
Theorem fit_invalid_input_raises (T : Type) (ST : Scalar T)
    (linalg_inv : mat T -> res (mat T)) (X : mat T) (t : vec T)
    (X_labels : seq string) (self : rvm T) :
  ~~ [&& 0 < size X, all (fun r => size r == ncols X) X, 0 < ncols X,
         size t == size X, all (all ffinite) X & all ffinite t] ->
  RVR.fit linalg_inv X t X_labels self = (Exc ValueError, self).
Proof.
move=> Hn; rewrite /RVR.fit /BaseRVM.fit {1}/bind /lift.
suff -> : @check_X_y T ST X t = Exc ValueError by [].
move: Hn; rewrite /check_X_y !lt0n.
case: (size X == 0) => //=; case: (all _ X) => //=.
case: (ncols X == 0) => //=; case: (size t == size X) => //=.
by move=> ->.
Qed.

Lemma fit_invalid_input_raises_witness :
  let fitted := (F64.fit Examples.X [:: F64.lit 1] Examples.X_labels
                        Examples.default_model).2 in
  F64.fit [:: [:: F64.lit 1]; [::]] [:: F64.lit 1; F64.lit 1]
          Examples.X_labels fitted = (Exc ValueError, fitted).
Proof.
move=> fitted.
by apply: (@fit_invalid_input_raises _ _ F64.inv
             [:: [:: F64.lit 1]; [::]] [:: F64.lit 1; F64.lit 1]).
Defined.

Section FitEnds.

Context {T : Type} {ST : Scalar T}.

Lemma fit_val_check (linalg_inv : mat T -> res (mat T)) (X : mat T) (t : vec T)
    (X_labels : seq string) (self self' : rvm T) (u : unit) :
  RVR.fit linalg_inv X t X_labels self = (Val u, self') ->
  check_X_y X t = Val (X, t).
Proof. by move=> /fit_inv [s2 [v []]]. Qed.

Lemma set_bias_term_spec (self self' : rvm T) (u : unit) :
  BaseRVM.set_bias_term self = (Val u, self') ->
  if bias_used self
  then exists m x, [/\ m_ self = Some m, getitem_last m = Val x &
                       self' = set_bias (Some x) self]
  else self' = set_bias None self.
Proof.
rewrite /BaseRVM.set_bias_term; self_cases self.
case: bias_used0; run_cases => //; last by case=> _ <-.
by case E: (getitem_last _) => [x|] //= [_ <-]; exists v, x.
Qed.

Lemma report_val (i : nat) (self self' : rvm T) (u : unit) :
  BaseRVM.report i self = (Val u, self') ->
  ~~ (verbose self && (verb_freq self == 0)).
Proof.
rewrite /BaseRVM.report; self_cases self.
by case: verbose0; run_cases => //; case: (_ == _).
Qed.

Lemma loop_entry_cfg (X : mat T) (t : vec T) (X_labels : seq string) (self : rvm T) :
  cfg_eq self (loop_entry X t X_labels self).
Proof. by case: self; split=> //; split; split. Qed.

Lemma first_iteration (linalg_inv : mat T -> res (mat T)) (X : mat T) (t : vec T)
    (X_labels : seq string) (self self' : rvm T) (u : unit) :
  RVR.fit linalg_inv X t X_labels self = (Val u, self') -> 0 < n_iter self ->
  exists b s1,
    BaseRVM.iteration (RVR._posterior linalg_inv) (size X) t 0
      (loop_entry X t X_labels self) = (Val b, s1).
Proof.
move=> /fit_inv [s2 [v [_ Hloop _]]].
case: (n_iter self) Hloop => [|n] //= H _.
by mcall H s1 E; exists u0, s1.
Qed.

End FitEnds.





(** After a [fit] that returns, [bias] is the last entry of the final [m_]
    when [bias_used] is (still) set, and [None] when it is not. *)
Theorem fit_sets_bias (T : Type) (ST : Scalar T)
    (linalg_inv : mat T -> res (mat T)) (X : mat T) (t : vec T)
    (X_labels : seq string) (self self' : rvm T) (u : unit) :
  RVR.fit linalg_inv X t X_labels self = (Val u, self') ->
  if bias_used self'
  then exists m x, [/\ m_ self' = Some m, getitem_last m = Val x &
                       bias self' = Some (Some x)]
  else bias self' = Some None.
Proof.
move=> H; have Ec := fit_val_check H.
move: H; rewrite (fit_unfold _ _ _ Ec) => H; mcall H s2 E.
have Hs := set_bias_term_spec H.
case Hb: (bias_used s2) Hs => Hs.
- case: Hs => m [x [Em Ex ->]].
  have -> : bias_used (set_bias (Some x) s2) = true by rewrite -Hb; case: (s2).
  by exists m, x; split=> //; [rewrite -Em|]; case: (s2).
- rewrite Hs.
  have -> : bias_used (set_bias None s2) = false by rewrite -Hb; case: (s2).
  by case: (s2).
Qed.

Lemma fit_sets_bias_witness :
  let r := F64.fit Examples.X [:: F64.lit 1] Examples.X_labels
                   Examples.default_model in
  [/\ r.1 = Val tt, bias_used r.2 = true &
      exists m x, [/\ m_ r.2 = Some m, getitem_last m = Val x &
                      bias r.2 = Some (Some x)]].
Proof.
move=> r.
have H : F64.fit Examples.X [:: F64.lit 1] Examples.X_labels
                 Examples.default_model = (Val tt, r.2) by vm_compute.
have Hb : bias_used r.2 = true by vm_compute.
split; [by vm_compute | exact: Hb |].
by move: (fit_sets_bias H); rewrite Hb.
Defined.

(** A [fit] that runs at least one iteration with [verbose] set cannot
    return when [verb_freq] is 0: the modulus of line 160 raises. *)
Theorem fit_verbose_needs_verb_freq (T : Type) (ST : Scalar T)
    (linalg_inv : mat T -> res (mat T)) (X : mat T) (t : vec T)
    (X_labels : seq string) (self self' : rvm T) (u : unit) :
  RVR.fit linalg_inv X t X_labels self = (Val u, self') ->
  0 < n_iter self -> verbose self -> verb_freq self != 0.
Proof.
move=> H npos Hv.
have [b [s1 Hit]] := first_iteration H npos.
move: Hit; rewrite /BaseRVM.iteration => Hit.
mcall Hit sp Ep; mcall Hit sa Ea; mcall Hit sb Eb; mcall Hit sq Epr; mcall Hit sr Er.
have [[_ _ _ _ _] [_ E1 E2 _]] : cfg_le self sq.
  apply: cfg_le_trans (cfg_eq_le (loop_entry_cfg X t X_labels self)) _.
  apply: cfg_le_trans (cfg_eq_le (posterior_cfg Ep)) _.
  apply: cfg_le_trans (cfg_eq_le (update_alpha_cfg Ea)) _.
  apply: cfg_le_trans (cfg_eq_le (update_beta_cfg Eb)) _.
  exact: prune_cfg Epr.
by have := report_val Er; rewrite E1 E2 Hv.
Qed.

Lemma fit_verbose_needs_verb_freq_witness :
  let self := Examples.default_model in
  let r := F64.fit Examples.X [:: F64.lit 1] Examples.X_labels self in
  [/\ r.1 = Val tt, verbose self = true & verb_freq self != 0].
Proof.
move=> self r.
have H : F64.fit Examples.X [:: F64.lit 1] Examples.X_labels self = (Val tt, r.2).
  by vm_compute.
split; [by vm_compute | by [] |].
exact: (fit_verbose_needs_verb_freq H (erefl : 0 < n_iter self) (erefl : verbose self)).
Defined.

(** ** predict *)

(** [predict] never modifies the instance, whatever it returns or raises. *)
Theorem predict_leaves_instance (T : Type) (ST : Scalar T) (X : mat T)
    (eval_MSE : bool) (self self' : rvm T) (r : res (vec T * option (vec T))) :
  RVR.predict X eval_MSE self = (r, self') -> self' = self.
Proof.
pose R := fun s s' : rvm T => s' = s.
have Rr : forall s, R s s by [].
have Rt : forall s1 s2 s3, R s1 s2 -> R s2 s3 -> R s1 s3.
  by rewrite /R => ? ? ? -> ->.
suff Hk : keeps R (@RVR.predict T ST X eval_MSE) by exact: Hk.
rewrite /RVR.predict; cbv zeta.
apply: (keeps_bind Rt) => [|m]; first exact: (keeps_getattr Rr).
apply: (keeps_bind Rt) => [|y0]; first exact: (keeps_lift Rr).
case: eval_MSE; last exact: (keeps_ret Rr).
apply: (keeps_bind Rt) => [|b]; first exact: (keeps_getattr Rr).
apply: (keeps_bind Rt) => [|sg]; first exact: (keeps_getattr Rr).
apply: (keeps_bind Rt) => [|c]; first exact: (keeps_lift Rr).
exact: (keeps_ret Rr).
Qed.

Lemma predict_leaves_instance_witness :
  let fitted := (F64.fit Examples.X1 [:: F64.lit 1] [:: "x"%string]
                         Examples.plain_model).2 in
  let r := F64.predict [:: [:: F64.lit 1]; [:: F64.lit (-1)]] true fitted in
  r.2 = fitted.
Proof.
move=> fitted r.
have H : RVR.predict [:: [:: F64.lit 1]; [:: F64.lit (-1)]] true fitted = (r.1, r.2).
  by vm_compute.
exact: (predict_leaves_instance H).
Defined.



(** ** What an aborted fit leaves behind *)

Section Fitted.

Context {T : Type} {ST : Scalar T}.

Let R := fun s s' : rvm T => fitted s -> fitted s'.

Let Rr : forall s, R s s.
Proof. by rewrite /R. Qed.

Let Rt : forall s1 s2 s3, R s1 s2 -> R s2 s3 -> R s1 s3.
Proof. by rewrite /R => s1 s2 s3 H1 H2 /H1 /H2. Qed.

Ltac all_attrs s :=
  case: s => ? ? ? ? ? ? ? ? ? [?|] [?|] [?|] [?|] [?|] [?|] [?|] [?|] ? ? ?.

Lemma fitted_set_bias_used v (s : rvm T) : R s (set_bias_used v s).
Proof. by rewrite /R; all_attrs s. Qed.
Lemma fitted_set_relevance_ v (s : rvm T) : R s (set_relevance_ v s).
Proof. by rewrite /R; all_attrs s. Qed.
Lemma fitted_set_alpha_ v (s : rvm T) : R s (set_alpha_ v s).
Proof. by rewrite /R; all_attrs s. Qed.
Lemma fitted_set_alpha_old v (s : rvm T) : R s (set_alpha_old v s).
Proof. by rewrite /R; all_attrs s. Qed.
Lemma fitted_set_gamma v (s : rvm T) : R s (set_gamma v s).
Proof. by rewrite /R; all_attrs s. Qed.
Lemma fitted_set_phi v (s : rvm T) : R s (set_phi v s).
Proof. by rewrite /R; all_attrs s. Qed.
Lemma fitted_set_sigma_ v (s : rvm T) : R s (set_sigma_ v s).
Proof. by rewrite /R; all_attrs s. Qed.
Lemma fitted_set_m_ v (s : rvm T) : R s (set_m_ v s).
Proof. by rewrite /R; all_attrs s. Qed.
Lemma fitted_set_beta_ v (s : rvm T) : R s (set_beta_ v s).
Proof. by rewrite /R; all_attrs s. Qed.
Lemma fitted_set_bias v (s : rvm T) : R s (set_bias v s).
Proof. by rewrite /R; all_attrs s. Qed.

Ltac fitted_step :=
  first
    [ apply: (keeps_bind Rt) => [|?]
    | exact: (keeps_ret Rr)
    | exact: (keeps_raise Rr)
    | exact: (keeps_lift Rr)
    | exact: (keeps_get Rr)
    | exact: (keeps_getattr Rr)
    | apply: keeps_if
    | apply: keeps_setattr => ?;
      first [ exact: fitted_set_bias_used | exact: fitted_set_relevance_
            | exact: fitted_set_alpha_ | exact: fitted_set_alpha_old
            | exact: fitted_set_gamma | exact: fitted_set_phi
            | exact: fitted_set_sigma_ | exact: fitted_set_m_
            | exact: fitted_set_beta_ | exact: fitted_set_bias ] ].

Lemma iteration_fitted (linalg_inv : mat T -> res (mat T)) (n i : nat) (t : vec T) :
  keeps R (BaseRVM.iteration (RVR._posterior linalg_inv) n t i).
Proof.
rewrite /BaseRVM.iteration /RVR._posterior /BaseRVM.update_alpha
        /BaseRVM.update_beta /BaseRVM._prune /BaseRVM.keep_mask
        /BaseRVM.prune_relevance /BaseRVM.prune_arrays /BaseRVM.report
        /BaseRVM.converged.
by repeat fitted_step.
Qed.

Lemma for_range_fitted (body : nat -> M T bool) (i n : nat) :
  (forall j, keeps R (body j)) -> keeps R (BaseRVM.for_range body i n).
Proof.
move=> Hb; elim: n i => [|n IH] i /=; first exact: (keeps_ret Rr).
apply: (keeps_bind Rt) => [|stop]; first exact: Hb.
by case: stop; [exact: (keeps_ret Rr) | exact: IH].
Qed.

Lemma fit_fitted (linalg_inv : mat T -> res (mat T)) (X : mat T) (t : vec T)
    (X_labels : seq string) (self self' : rvm T) (r : res unit) :
  check_X_y X t = Val (X, t) ->
  RVR.fit linalg_inv X t X_labels self = (r, self') -> fitted self'.
Proof.
move=> Ec; rewrite (fit_unfold _ _ _ Ec) => H.
have He : fitted (loop_entry X t X_labels self) by case: (self).
suff Hk : keeps R
    (BaseRVM.for_range
       (@BaseRVM.iteration T ST (@RVR._posterior T ST linalg_inv) (size X) t)
       0 (n_iter self) ;;
     @BaseRVM.set_bias_term T) by exact: (Hk _ _ _ H He).
apply: (keeps_bind Rt) => [|_].
  by apply: for_range_fitted => j; exact: iteration_fitted.
by rewrite /BaseRVM.set_bias_term; repeat fitted_step.
Qed.

End Fitted.

(** Once the input has passed validation, whatever [fit] then returns or
    raises (a singular matrix, a mask that does not fit [relevance_], a
    zero [verb_freq]), the attributes [phi], [labels], [relevance_], [y],
    [alpha_], [beta_], [m_] and [alpha_old] are all present afterwards.  So
    after an aborted [fit], [predict] without [eval_MSE] does not fail for
    a missing attribute: it returns the inner products with the [m_] that
    the aborted run left. *)
Theorem aborted_fit_still_predicts (T : Type) (ST : Scalar T)
    (linalg_inv : mat T -> res (mat T)) (X : mat T) (t : vec T)
    (X_labels : seq string) (self self' : rvm T) (r : res unit) :
  check_X_y X t = Val (X, t) ->
  RVR.fit linalg_inv X t X_labels self = (r, self') ->
  fitted self' /\
  exists m,
    m_ self' = Some m /\
    forall X', all (fun row => size row == size m) X' ->
      RVR.predict X' false self' = (Val ([seq vdot row m | row <- X'], None), self').
Proof.
move=> Ec H; have Hf := fit_fitted Ec H; split=> //.
case Em: (m_ self') => [m|]; last first.
  by move: Hf; rewrite /fitted Em /= !andbF.
exists m; split=> // X' HX'.
by rewrite /RVR.predict /bind /getattr /lift Em /RVR.np_dot_mv_checked HX'.
Qed.

Lemma aborted_fit_still_predicts_witness :
  let t := [:: F64.lit 1; F64.lit 1] in
  let r := F64.fit Examples.X_square t Examples.X_labels Examples.default_model in
  [/\ r.1 = Exc IndexError, fitted r.2 &
      F64.predict Examples.X_square false r.2 =
        (Val ([:: F64.lit 0.5; F64.lit 0.5], None), r.2)].
Proof.
move=> t r.
have Ec : check_X_y Examples.X_square t = Val (Examples.X_square, t) by vm_compute.
have H : F64.fit Examples.X_square t Examples.X_labels Examples.default_model =
         (r.1, r.2) by vm_compute.
have [Hf [m [Em Hp]]] := aborted_fit_still_predicts Ec H.
split; [by vm_compute | exact: Hf |].
have Em' : m_ r.2 = Some [:: F64.lit 0.5; F64.lit 0.5] by vm_compute.
move: Em; rewrite Em' => -[?]; subst m.
by rewrite /F64.predict Hp //; vm_compute.
Defined.

(** ** Pruning twice *)

Section PruneTwice.

Context {T : Type} {ST : Scalar T}.

Lemma mask_self (m : seq bool) : mask m m = nseq (count id m) true.
Proof. by elim: m => [|[] m IH] //=; rewrite IH. Qed.

Lemma all_false_nseq (m : seq bool) :
  has id m = false -> m = nseq (size m) false.
Proof. by elim: m => [|[] m IH] //= /IH {1}->. Qed.

Lemma take_nseq_false (m : nat) : take m (nseq m.+1 false) = nseq m false.
Proof. by elim: m => [|m IH] //=; rewrite -[in RHS]IH. Qed.

Lemma mask_first_last (m : nat) :
  mask (rcons (nseq m false) true) (nseq m.+1 false) = [:: false].
Proof. by elim: m => [|m IH]. Qed.

Lemma count_first_last (m : nat) : count id (rcons (nseq m false) true) = 1.
Proof. by elim: m => [|m IH]. Qed.

Lemma forced_mask_count (raw : seq bool) (bu : bool) :
  0 < size raw -> 0 < count id (forced_mask raw bu).
Proof.
rewrite /forced_mask; case H: (has id raw); first by rewrite -has_count.
case: raw {H} => [|b raw] //= _; case: bu => //.
by rewrite -cats1 count_cat /= addn1.
Qed.

(** The mask that [_prune] computes from arrays it has just pruned keeps
    everything. *)
Lemma forced_mask_stable (raw : seq bool) (bu : bool) :
  0 < size raw ->
  let keep := forced_mask raw bu in
  forced_mask (mask keep raw) (bu && last true keep) = nseq (count id keep) true.
Proof.
move=> k0 /=; rewrite {2 4}/forced_mask.
case H: (has id raw).
  rewrite /forced_mask H mask_self /forced_mask has_nseq /=.
  by move: H; rewrite has_count => ->.
rewrite /forced_mask H.
move: k0; rewrite (all_false_nseq H); case: (size raw) => [|n] //= _.
case: bu => /=.
- rewrite /but_last /=; case: n => [|m] //=.
  rewrite size_nseq -![false :: nseq m false]/(nseq m.+1 false).
  by rewrite take_nseq_false mask_first_last /= count_first_last last_rcons.
- have -> : mask (nseq n false) (nseq n false) = [::] by elim: n.
  by have -> : count id (nseq n false) = 0 by elim: n.
Qed.

Lemma map_mask_true (k : nat) (A : mat T) :
  all (fun r => size r == k) A -> [seq mask (nseq k true) r | r <- A] = A.
Proof.
by elim: A => [|r A IH] //= /andP [/eqP Er /IH ->]; rewrite mask_true ?Er.
Qed.

Lemma but_last_nseq_true (k : nat) : but_last (nseq k true) = nseq k.-1 true.
Proof.
rewrite /but_last size_nseq; case: k => [|k] //=.
by elim: k => [|k IH] //=; rewrite -[in RHS]IH.
Qed.

(** Applying the all-true mask gives back the same instance. *)
Lemma select_all_true (self : rvm T) (k : nat) :
  wf k self -> relevance_rows k self -> select (nseq k true) self = self.
Proof.
case: self => ni to al th be bf bu ve vf ph la re yy a_ b_ mm ao ga si bi.
rewrite /wf /relevance_rows /select /= => /and5P [Ha Hao Hg Hm /andP [HP Hs]].
case: a_ Ha => [a|] //= /eqP Ea; case: ao Hao => [ao|] //= /eqP Eao.
case: ga Hg => [g|] //= /eqP Eg; case: mm Hm => [m|] //= /eqP Em.
case: ph HP => [P|] //= HP; case: si Hs => [sg|] //= /andP [/eqP Es Hs].
case: re => [R|] //= /eqP ER.
rewrite !mask_true ?Ea ?Eao ?Eg ?Em ?size_map ?Es // !map_mask_true //.
have -> : last true (nseq k true) = true by elim: (k).
rewrite andbT.
suff -> : mask (if bu then but_last (nseq k true) else nseq k true) R = R by [].
by case: bu ER => ER; rewrite ?but_last_nseq_true mask_true ?ER.
Qed.

Lemma below_threshold_select (keep : seq bool) (self : rvm T) :
  below_threshold (select keep self) = mask keep (below_threshold self).
Proof.
rewrite /below_threshold /select /=.
by case: (alpha_ self) => [a|] /=; rewrite ?mask0 // map_mask.
Qed.

End PruneTwice.

(** [_prune] is idempotent.  On an instance whose per-basis-function arrays
    have [k > 0] entries and whose [relevance_] has the rows the mask
    indexes, calling [_prune] a second time right after the first succeeds
    and leaves the instance as the first call left it: the second mask keeps
    everything. *)
Theorem prune_twice (T : Type) (ST : Scalar T) (self : rvm T) (k : nat) :
  wf k self -> 0 < k -> relevance_rows k self ->
  bind BaseRVM._prune (fun _ => BaseRVM._prune) self = BaseRVM._prune self.
Proof.
move=> Hwf k0 Hrel.
have Ha : has_size k (alpha_ self) by case/andP: Hwf.
rewrite /bind (prune_run Hwf k0 Hrel).
set keep := forced_mask _ _.
have Eb : size (below_threshold self) = k := size_below_threshold Ha.
have Ek : size keep = k by rewrite size_forced_mask Eb.
have k1 : 0 < count id keep by apply: forced_mask_count; rewrite Eb.
have Hwf1 := wf_select Hwf Ek.
have Hrel1 := relevance_rows_select Hrel Ek k0.
rewrite (prune_run Hwf1 k1 Hrel1) below_threshold_select.
have -> : bias_used (select keep self) = bias_used self && last true keep by [].
by rewrite forced_mask_stable ?Eb // select_all_true.
Qed.

Lemma prune_twice_witness :
  let self := Examples.before_prune Examples.X [:: F64.lit 1] Examples.X_labels
                Examples.default_model in
  [/\ wf 2 self, relevance_rows 2 self &
      bind BaseRVM._prune (fun _ => BaseRVM._prune) self = BaseRVM._prune self].
Proof.
move=> self.
have Hwf : wf 2 self by vm_compute.
have Hrel : relevance_rows 2 self by vm_compute.
split; [exact: Hwf | exact: Hrel |].
exact: (@prune_twice _ _ self 2 Hwf isT Hrel).
Defined.
